(** * compress: the slice wrapper and the channel pipeline

    Two packages of the repository are embedded here.

    - [Compress] follows the sequential wrapper (package compress): a struct
      holding one Go slice, whose methods read and rewrite that slice.  Go
      slices are headers (array, offset, length, capacity) over shared backing
      arrays, so the model keeps a store of arrays and passes it explicitly.
    - [Stream] follows package stream: every stage is a goroutine connected to
      its neighbours by unbuffered channels.  Goroutines are program-point
      state machines, the runtime is an interleaving step relation with
      rendezvous on channels, and a scheduler oracle picks the step to take. *)

From stdpp Require Import base option list relations.
From Stdlib Require Import ZArith Lia.

Local Open Scope Z_scope.
Local Open Scope nat_scope.

(* ================================================================== *)
(** * Package compress *)
(* ================================================================== *)

Module Compress.

Section compress.

Context {T : Type}.

(** [var value T]: the zero value of the element type. *)
Variable zero : T.

(** Capacity the runtime picks when [append] has to reallocate; Go only
    promises that the new array is large enough, which [append] enforces
    with a [max]. *)
Variable growcap : nat -> nat.

(** ** Slices over a store of backing arrays *)

(** The store: the backing arrays allocated so far. *)
Abbreviation mem := (list (list T)).

Record slice := Slice { base : nat; off : nat; len : nat; cap : nat }.

Definition array (m : mem) (b : nat) : list T := default [] (m !! b).

(** The elements a slice shows: [len] cells of its array from [off] on. *)
Definition elems (m : mem) (s : slice) : list T :=
  take (len s) (drop (off s) (array m (base s))).

(** [s[i]]: [None] is the runtime panic of an index out of range. *)
Definition index (m : mem) (s : slice) (i : Z) : option T :=
  if bool_decide (0 ≤ i < Z.of_nat (len s))%Z
  then array m (base s) !! (off s + Z.to_nat i)
  else None.

(** [make([]T, n)]: a fresh array of [n] zero values. *)
Definition make (m : mem) (n : nat) : mem * slice :=
  (m ++ [replicate n zero], Slice (length m) 0 n n).

(** [append(s, v)]: writes in place when capacity is left (the write is
    visible through every slice that shares the array), otherwise copies
    the elements to a fresh, larger array. *)
Definition append (m : mem) (s : slice) (v : T) : mem * slice :=
  if bool_decide (len s < cap s)
  then (alter (λ a, <[off s + len s := v]> a) (base s) m,
        Slice (base s) (off s) (S (len s)) (cap s))
  else
    let newcap := S (len s) `max` growcap (cap s) in
    (m ++ [elems m s ++ v :: replicate (newcap - S (len s)) zero],
     Slice (length m) 0 (S (len s)) newcap).

(** A header is valid when its window lies inside its array. *)
Definition valid (m : mem) (s : slice) : Prop :=
  len s ≤ cap s ∧ off s + cap s ≤ length (array m (base s)).

(** ** The wrapper *)

Record Compress := { data : slice }.

(** [for _, x := range s { ... }]: the range expression is evaluated once,
    so the loop runs over the indices of the header taken at loop entry and
    reads each element from the array when its turn comes. *)
Definition range_indices (r : slice) : list Z :=
  Z.of_nat <$> seq 0 (len r).

(** The inner loop of [FlatMap]: [c.data = append(c.data, transfomed)]. *)
Fixpoint FlatMap_inner (ts : list T) (m : mem) (c : Compress) : mem * Compress :=
  match ts with
  | [] => (m, c)
  | transfomed :: ts' =>
      let '(m', d) := append m (data c) transfomed in
      FlatMap_inner ts' m' {| data := d |}
  end.

Fixpoint FlatMap_loop (transfrom : T -> list T) (r : slice) (idxs : list Z)
    (m : mem) (c : Compress) : option (mem * Compress) :=
  match idxs with
  | [] => Some (m, c)
  | i :: idxs' =>
      match index m r i with
      | None => None
      | Some item =>
          let '(m', c') := FlatMap_inner (transfrom item) m c in
          FlatMap_loop transfrom r idxs' m' c'
      end
  end.

Definition FlatMap (transfrom : T -> list T) (m : mem) (c : Compress)
    : option (mem * Compress) :=
  if bool_decide (len (data c) = 0) then Some (m, c)
  else FlatMap_loop transfrom (data c) (range_indices (data c)) m c.

Definition At (m : mem) (c : Compress) (index_ : Z) : option T :=
  let value := zero in
  if bool_decide (len (data c) = 0) then Some value
  else
    let index_ :=
      if bool_decide (index_ >= Z.of_nat (len (data c)))%Z
      then (Z.of_nat (len (data c)) - 1)%Z else index_ in
    let index_ := if bool_decide (index_ < 0)%Z then 0%Z else index_ in
    index m (data c) index_.

Definition Head (m : mem) (c : Compress) : option T :=
  let value := zero in
  if bool_decide (len (data c) = 0) then Some value
  else index m (data c) 0.

Definition Tail (m : mem) (c : Compress) : option T :=
  let value := zero in
  if bool_decide (len (data c) = 0) then Some value
  else index m (data c) (Z.of_nat (len (data c)) - 1).

(** [Pop] and [Shift] return the element and leave the receiver resliced. *)
Definition Pop (m : mem) (c : Compress) : option (T * Compress) :=
  let value := zero in
  if bool_decide (len (data c) = 0) then Some (value, c)
  else
    let lastIndex := len (data c) - 1 in
    match index m (data c) (Z.of_nat lastIndex) with
    | None => None
    | Some value =>
        let d := data c in
        Some (value, {| data := Slice (base d) (off d) lastIndex (cap d) |})
    end.

Definition Shift (m : mem) (c : Compress) : option (T * Compress) :=
  let value := zero in
  if bool_decide (len (data c) = 0) then Some (value, c)
  else
    match index m (data c) 0 with
    | None => None
    | Some value =>
        let d := data c in
        Some (value,
              {| data := Slice (base d) (S (off d)) (len d - 1) (cap d - 1) |})
    end.

Fixpoint Find_loop (predicate : T -> bool) (m : mem) (r : slice)
    (idxs : list Z) : option T :=
  match idxs with
  | [] => Some zero
  | i :: idxs' =>
      match index m r i with
      | None => None
      | Some e => if predicate e then Some e else Find_loop predicate m r idxs'
      end
  end.

Definition Find (predicate : T -> bool) (m : mem) (c : Compress) : option T :=
  let value := zero in
  if bool_decide (len (data c) = 0) then Some value
  else Find_loop predicate m (data c) (range_indices (data c)).

Fixpoint Limit_loop (n : Z) (r : slice) (idxs : list Z)
    (m : mem) (result : slice) (count : Z) : option (mem * slice) :=
  match idxs with
  | [] => Some (m, result)
  | i :: idxs' =>
      match index m r i with
      | None => None
      | Some item =>
          if bool_decide (count >= n)%Z then Some (m, result)
          else
            let '(m', result') := append m result item in
            Limit_loop n r idxs' m' result' (count + 1)%Z
      end
  end.

Definition Limit (n : Z) (m : mem) (c : Compress) : option (mem * Compress) :=
  if bool_decide (len (data c) = 0) then Some (m, c)
  else
    let '(m1, result) := make m (len (data c)) in
    match Limit_loop n (data c) (range_indices (data c)) m1 result 0%Z with
    | None => None
    | Some (m2, result') => Some (m2, {| data := result' |})
    end.

(** [Collect] hands out the slice; its contents are read in the store. *)
Definition Collect (m : mem) (c : Compress) : list T := elems m (data c).

(** ** The remaining methods of the wrapper *)

(** [make([]T, n, k)]: length [n] over a fresh array of [k] zero values. *)
Definition make_cap (m : mem) (n k : nat) : mem * slice :=
  (m ++ [replicate k zero], Slice (length m) 0 n k).

(** [s[i] = v]: [None] is the runtime panic of an index out of range. *)
Definition store (m : mem) (s : slice) (i : Z) (v : T) : option mem :=
  if bool_decide (0 ≤ i < Z.of_nat (len s))%Z
  then Some (alter (λ a, <[off s + Z.to_nat i := v]> a) (base s) m)
  else None.

(** [s[low:high]]: Go panics unless [0 <= low <= high <= cap(s)]. *)
Definition reslice (s : slice) (low high : Z) : option slice :=
  if bool_decide (0 ≤ low ∧ low ≤ high ∧ high ≤ Z.of_nat (cap s))%Z
  then Some (Slice (base s) (off s + Z.to_nat low) (Z.to_nat (high - low))
               (cap s - Z.to_nat low))
  else None.

(** [New] wraps the caller's slice itself: the wrapper and the caller share
    the backing array. *)
Definition New (m : mem) (data_ : slice) : mem * Compress :=
  if bool_decide (len data_ = 0)
  then let '(m', d) := make m 0 in (m', {| data := d |})
  else (m, {| data := data_ |}).

Fixpoint Filter_loop (predicate : T -> bool) (r : slice) (idxs : list Z)
    (m : mem) (filteredData : slice) : option (mem * slice) :=
  match idxs with
  | [] => Some (m, filteredData)
  | i :: idxs' =>
      match index m r i with
      | None => None
      | Some elem =>
          if predicate elem then
            let '(m', filteredData') := append m filteredData elem in
            Filter_loop predicate r idxs' m' filteredData'
          else Filter_loop predicate r idxs' m filteredData
      end
  end.

Definition Filter (predicate : T -> bool) (m : mem) (c : Compress)
    : option (mem * Compress) :=
  if bool_decide (len (data c) = 0) then Some (m, c)
  else
    let '(m1, filteredData) := make_cap m 0 (len (data c)) in
    match Filter_loop predicate (data c) (range_indices (data c)) m1 filteredData with
    | None => None
    | Some (m2, filteredData') => Some (m2, {| data := filteredData' |})
    end.

(** [for i, elem := range c.data { c.data[i] = predicate(elem) }] *)
Fixpoint Map_loop (predicate : T -> T) (r : slice) (idxs : list Z)
    (m : mem) (c : Compress) : option mem :=
  match idxs with
  | [] => Some m
  | i :: idxs' =>
      match index m r i with
      | None => None
      | Some elem =>
          match store m (data c) i (predicate elem) with
          | None => None
          | Some m' => Map_loop predicate r idxs' m' c
          end
      end
  end.

Definition Map (predicate : T -> T) (m : mem) (c : Compress)
    : option (mem * Compress) :=
  if bool_decide (len (data c) = 0) then Some (m, c)
  else
    match Map_loop predicate (data c) (range_indices (data c)) m c with
    | None => None
    | Some m' => Some (m', c)
    end.

Definition Range (start end_ : Z) (c : Compress) : option Compress :=
  if bool_decide (len (data c) = 0) then Some c
  else
    let start := if bool_decide (start < 0)%Z then 0%Z else start in
    let end_ :=
      if bool_decide (end_ > Z.of_nat (len (data c)))%Z
      then Z.of_nat (len (data c)) else end_ in
    let start := if bool_decide (start > end_)%Z then end_ else start in
    match reslice (data c) start end_ with
    | None => None
    | Some d => Some {| data := d |}
    end.

Fixpoint Every_loop (predicate : T -> bool) (m : mem) (r : slice)
    (idxs : list Z) : option bool :=
  match idxs with
  | [] => Some true
  | i :: idxs' =>
      match index m r i with
      | None => None
      | Some elem =>
          if negb (predicate elem) then Some false
          else Every_loop predicate m r idxs'
      end
  end.

Definition Every (predicate : T -> bool) (m : mem) (c : Compress) : option bool :=
  if bool_decide (len (data c) = 0) then Some false
  else Every_loop predicate m (data c) (range_indices (data c)).

(** A [[2]any]: each half is an interface value, [None] for [nil]. *)
Definition entry : Type := option Z * option T.

Fixpoint Entries_loop (r : slice) (idxs : list Z) (m : mem)
    (result : list entry) : option (list entry) :=
  match idxs with
  | [] => Some result
  | i :: idxs' =>
      match index m r i with
      | None => None
      | Some elem =>
          let data_ := (Some i, Some elem) in
          if bool_decide (0 ≤ i < Z.of_nat (length result))%Z
          then Entries_loop r idxs' m (<[Z.to_nat i := data_]> result)
          else None
      end
  end.

Definition Entries (m : mem) (c : Compress) : option (list entry) :=
  let result := replicate (len (data c)) (None, None) in
  if bool_decide (len (data c) = 0) then Some result
  else Entries_loop (data c) (range_indices (data c)) m result.

Fixpoint Reduce_loop (reducer : T -> T -> T) (m : mem) (r : slice)
    (idxs : list Z) (result : T) : option T :=
  match idxs with
  | [] => Some result
  | i :: idxs' =>
      match index m r i with
      | None => None
      | Some item => Reduce_loop reducer m r idxs' (reducer result item)
      end
  end.

Definition Reduce (inital : T) (reducer : T -> T -> T) (m : mem) (c : Compress)
    : option T :=
  Reduce_loop reducer m (data c) (range_indices (data c)) inital.

End compress.

End Compress.

(* ================================================================== *)
(** * Package stream *)
(* ================================================================== *)

Module Stream.

Section stream.

Context {T : Type}.

(** Channels and wait groups are named by the order of their creation. *)
Definition chan := nat.
Definition waitgroup := nat.

Record Stream := { data : chan }.

(** ** Goroutines

    A goroutine is the body of one [go func() { ... }()] of the package,
    frozen at the statement it executes next together with its captured
    variables and locals.  [sending] is the value of a pending [ch <- _];
    without one the goroutine is at the head of its [range] loop. *)
Inductive goroutine :=
| GSource (ch : chan) (data : list T)
| GFilter (predicate : T -> bool) (s : Stream) (ch : chan) (sending : option T)
| GMap (predicate : T -> T) (s : Stream) (ch : chan) (sending : option T)
| GFlatMap (transform : T -> list T) (s : Stream) (ch : chan) (sending : list T)
| GLimit (n : Z) (s : Stream) (ch : chan) (count : Z) (sending : option T)
| GWorker (s : Stream) (ch : chan) (wg : waitgroup) (sending : option T)
| GWorkerDone (wg : waitgroup)
| GWait (wg : waitgroup) (ch : chan)
| GClose (ch : chan)
| GExit.

(** What a goroutine does next, with the state it continues in.  A receive
    is the head of [for item := range c]: it gets [Some item], or [None]
    once the channel is closed. *)
Inductive action :=
| ARecv (c : chan) (k : option T -> goroutine)
| ASend (c : chan) (v : T) (k : goroutine)
| AClose (c : chan) (k : goroutine)
| ADone (wg : waitgroup) (k : goroutine)
| AWait (wg : waitgroup) (k : goroutine)
| AHalt.

Definition next (g : goroutine) : action :=
  match g with
  (* NewStream: for _, item := range data { ch <- item }; defer close(ch) *)
  | GSource ch [] => AClose ch GExit
  | GSource ch (item :: data) => ASend ch item (GSource ch data)
  (* Filter: if predicate(item) { ch <- item } *)
  | GFilter predicate s ch None =>
      ARecv (data s) (λ r,
        match r with
        | Some item =>
            if predicate item then GFilter predicate s ch (Some item)
            else GFilter predicate s ch None
        | None => GClose ch
        end)
  | GFilter predicate s ch (Some item) =>
      ASend ch item (GFilter predicate s ch None)
  (* Map: result := predicate(item); ch <- result *)
  | GMap predicate s ch None =>
      ARecv (data s) (λ r,
        match r with
        | Some item => GMap predicate s ch (Some (predicate item))
        | None => GClose ch
        end)
  | GMap predicate s ch (Some result) =>
      ASend ch result (GMap predicate s ch None)
  (* FlatMap: for _, transformed := range transform(item) { ch <- transformed } *)
  | GFlatMap transform s ch [] =>
      ARecv (data s) (λ r,
        match r with
        | Some item => GFlatMap transform s ch (transform item)
        | None => GClose ch
        end)
  | GFlatMap transform s ch (transformed :: rest) =>
      ASend ch transformed (GFlatMap transform s ch rest)
  (* Limit: if count >= n { break }; ch <- item; count++ *)
  | GLimit n s ch count None =>
      ARecv (data s) (λ r,
        match r with
        | Some item =>
            if bool_decide (count >= n)%Z then GClose ch
            else GLimit n s ch count (Some item)
        | None => GClose ch
        end)
  | GLimit n s ch count (Some item) =>
      ASend ch item (GLimit n s ch (count + 1)%Z None)
  (* Parallel worker: for item := range s.data { ch <- item }; defer wg.Done() *)
  | GWorker s ch wg None =>
      ARecv (data s) (λ r,
        match r with
        | Some item => GWorker s ch wg (Some item)
        | None => GWorkerDone wg
        end)
  | GWorker s ch wg (Some item) => ASend ch item (GWorker s ch wg None)
  | GWorkerDone wg => ADone wg GExit
  (* Parallel closer: wg.Wait(); close(ch) *)
  | GWait wg ch => AWait wg (GClose ch)
  | GClose ch => AClose ch GExit
  | GExit => AHalt
  end.

(** ** The runtime: goroutines, channels, wait groups *)

Record runtime := Runtime {
  pool : list goroutine;   (* goroutines in spawn order *)
  chans : list bool;       (* per channel: has it been closed? *)
  wgs : list Z             (* per wait group: its counter *)
}.

(** [make(chan T)] *)
Definition make_chan (rt : runtime) : chan * runtime :=
  (length (chans rt), Runtime (pool rt) (chans rt ++ [false]) (wgs rt)).

(** [go func() { ... }()] *)
Definition go (g : goroutine) (rt : runtime) : runtime :=
  Runtime (pool rt ++ [g]) (chans rt) (wgs rt).

(** [var wg sync.WaitGroup; wg.Add(delta)]; [None] is the panic of a
    negative counter. *)
Definition new_wg (delta : Z) (rt : runtime) : option (waitgroup * runtime) :=
  if bool_decide (delta < 0)%Z then None
  else Some (length (wgs rt), Runtime (pool rt) (chans rt) (wgs rt ++ [delta])).

(** ** The methods that build a pipeline *)

Definition NewStream (data : list T) (rt : runtime) : Stream * runtime :=
  let '(ch, rt) := make_chan rt in
  ({| data := ch |}, go (GSource ch data) rt).

Definition Filter (predicate : T -> bool) (s : Stream) (rt : runtime)
    : Stream * runtime :=
  let '(ch, rt) := make_chan rt in
  ({| data := ch |}, go (GFilter predicate s ch None) rt).

Definition Map (predicate : T -> T) (s : Stream) (rt : runtime)
    : Stream * runtime :=
  let '(ch, rt) := make_chan rt in
  ({| data := ch |}, go (GMap predicate s ch None) rt).

Definition FlatMap (transform : T -> list T) (s : Stream) (rt : runtime)
    : Stream * runtime :=
  let '(ch, rt) := make_chan rt in
  ({| data := ch |}, go (GFlatMap transform s ch []) rt).

Definition Limit (n : Z) (s : Stream) (rt : runtime) : Stream * runtime :=
  let '(ch, rt) := make_chan rt in
  ({| data := ch |}, go (GLimit n s ch 0%Z None) rt).

(** [for i := 0; i < workers; i++ { go func() { ... }() }] *)
Fixpoint spawn_workers (k : nat) (s : Stream) (ch : chan) (wg : waitgroup)
    (rt : runtime) : runtime :=
  match k with
  | O => rt
  | S k' => spawn_workers k' s ch wg (go (GWorker s ch wg None) rt)
  end.

Definition Parallel (workers : Z) (s : Stream) (rt : runtime)
    : option (Stream * runtime) :=
  let '(ch, rt) := make_chan rt in
  match new_wg workers rt with
  | None => None
  | Some (wg, rt) =>
      let rt := spawn_workers (Z.to_nat workers) s ch wg rt in
      Some ({| data := ch |}, go (GWait wg ch) rt)
  end.

(** ** The calling goroutine

    The caller evaluates a chain [NewStream(source).m1(..)...mk(..).final()];
    [Reduce] and [Collect] run their loop in the caller itself. *)
Inductive call :=
| CFilter (predicate : T -> bool)
| CMap (predicate : T -> T)
| CFlatMap (transform : T -> list T)
| CLimit (n : Z)
| CParallel (workers : Z).

Inductive terminal :=
| TReduce (inital : T) (reduce : T -> T -> T)
| TCollect.

Record chain := Chain { source : list T; calls : list call; final : terminal }.

Inductive value :=
| VElem (result : T)
| VSlice (result : list T).

Inductive main_state :=
| MStart (c : chain)
| MChain (s : Stream) (cs : list call) (t : terminal)
| MReduce (inital : T) (reduce : T -> T -> T) (s : Stream) (result : T)
| MCollect (s : Stream) (result : list T)
| MReturn (v : value).

Record config := Config {
  main : main_state;
  rt : runtime;
  panicked : bool
}.

(** One statement of the caller that is not a channel operation. *)
Definition call_step (cfg : config) : option config :=
  match main cfg with
  | MStart c =>
      let '(s, rt') := NewStream (source c) (rt cfg) in
      Some (Config (MChain s (calls c) (final c)) rt' false)
  | MChain s (CFilter predicate :: cs) t =>
      let '(s', rt') := Filter predicate s (rt cfg) in
      Some (Config (MChain s' cs t) rt' false)
  | MChain s (CMap predicate :: cs) t =>
      let '(s', rt') := Map predicate s (rt cfg) in
      Some (Config (MChain s' cs t) rt' false)
  | MChain s (CFlatMap transform :: cs) t =>
      let '(s', rt') := FlatMap transform s (rt cfg) in
      Some (Config (MChain s' cs t) rt' false)
  | MChain s (CLimit n :: cs) t =>
      let '(s', rt') := Limit n s (rt cfg) in
      Some (Config (MChain s' cs t) rt' false)
  | MChain s (CParallel workers :: cs) t =>
      match Parallel workers s (rt cfg) with
      | Some (s', rt') => Some (Config (MChain s' cs t) rt' false)
      | None => Some (Config (main cfg) (rt cfg) true)
      end
  (* Reduce: result := inital *)
  | MChain s [] (TReduce inital reduce) =>
      Some (Config (MReduce inital reduce s inital) (rt cfg) false)
  (* Collect: result := make([]T, 0) *)
  | MChain s [] TCollect => Some (Config (MCollect s []) (rt cfg) false)
  | _ => None
  end.

(** The caller at the head of [for item := range s.data]. *)
Definition main_recv (m : main_state) : option (chan * (option T -> main_state)) :=
  match m with
  (* Reduce: result = reduce(inital, item) *)
  | MReduce inital reduce s result =>
      Some (data s, λ r,
        match r with
        | Some item => MReduce inital reduce s (reduce inital item)
        | None => MReturn (VElem result)
        end)
  (* Collect: result = append(result, item) *)
  | MCollect s result =>
      Some (data s, λ r,
        match r with
        | Some item => MCollect s (result ++ [item])
        | None => MReturn (VSlice result)
        end)
  | _ => None
  end.

(** ** Interleaving semantics

    Channels are unbuffered: a send and a receive on the same open channel
    happen together.  A receive on a closed channel ends the [range] loop.
    Closing a closed channel, sending on a closed channel and driving a
    wait-group counter below zero panic, which stops the program. *)
Inductive step : config -> config -> Prop :=
| step_call cfg cfg' :
    panicked cfg = false ->
    call_step cfg = Some cfg' ->
    step cfg cfg'
| step_sync m p cs ws i j gi gj c v ki kj :
    p !! i = Some gi -> next gi = ASend c v ki ->
    p !! j = Some gj -> next gj = ARecv c kj ->
    cs !! c = Some false ->
    step (Config m (Runtime p cs ws) false)
         (Config m (Runtime (<[j := kj (Some v)]> (<[i := ki]> p)) cs ws) false)
| step_sync_main m p cs ws i gi c v ki km :
    p !! i = Some gi -> next gi = ASend c v ki ->
    main_recv m = Some (c, km) ->
    cs !! c = Some false ->
    step (Config m (Runtime p cs ws) false)
         (Config (km (Some v)) (Runtime (<[i := ki]> p) cs ws) false)
| step_recv_closed m p cs ws j gj c kj :
    p !! j = Some gj -> next gj = ARecv c kj ->
    cs !! c = Some true ->
    step (Config m (Runtime p cs ws) false)
         (Config m (Runtime (<[j := kj None]> p) cs ws) false)
| step_recv_closed_main m p cs ws c km :
    main_recv m = Some (c, km) ->
    cs !! c = Some true ->
    step (Config m (Runtime p cs ws) false)
         (Config (km None) (Runtime p cs ws) false)
| step_close m p cs ws i gi c ki :
    p !! i = Some gi -> next gi = AClose c ki ->
    cs !! c = Some false ->
    step (Config m (Runtime p cs ws) false)
         (Config m (Runtime (<[i := ki]> p) (<[c := true]> cs) ws) false)
| step_close_panic m p cs ws i gi c ki :
    p !! i = Some gi -> next gi = AClose c ki ->
    cs !! c = Some true ->
    step (Config m (Runtime p cs ws) false)
         (Config m (Runtime p cs ws) true)
| step_send_panic m p cs ws i gi c v ki :
    p !! i = Some gi -> next gi = ASend c v ki ->
    cs !! c = Some true ->
    step (Config m (Runtime p cs ws) false)
         (Config m (Runtime p cs ws) true)
| step_done m p cs ws i gi wg ki n :
    p !! i = Some gi -> next gi = ADone wg ki ->
    ws !! wg = Some n -> (0 < n)%Z ->
    step (Config m (Runtime p cs ws) false)
         (Config m (Runtime (<[i := ki]> p) cs (<[wg := (n - 1)%Z]> ws)) false)
| step_done_panic m p cs ws i gi wg ki n :
    p !! i = Some gi -> next gi = ADone wg ki ->
    ws !! wg = Some n -> (n <= 0)%Z ->
    step (Config m (Runtime p cs ws) false)
         (Config m (Runtime p cs ws) true)
| step_wait m p cs ws i gi wg ki :
    p !! i = Some gi -> next gi = AWait wg ki ->
    ws !! wg = Some 0%Z ->
    step (Config m (Runtime p cs ws) false)
         (Config m (Runtime (<[i := ki]> p) cs ws) false).

(** ** Enumerating the enabled steps

    [successors] lists every configuration one step away, so that a
    scheduler can pick among them and a pipeline can be run. *)
Definition crash (cfg : config) : config := Config (main cfg) (rt cfg) true.

Definition set_pool (cfg : config) (p : list goroutine) : config :=
  Config (main cfg) (Runtime p (chans (rt cfg)) (wgs (rt cfg))) false.

(** The goroutines, and the caller, ready to take [v] from channel [c]. *)
Definition handoffs (cfg : config) (i : nat) (c : chan) (v : T) (ki : goroutine)
    : list config :=
  let p := <[i := ki]> (pool (rt cfg)) in
  omap id (imap (λ j gj,
    match next gj with
    | ARecv c' kj =>
        if decide (c' = c) then Some (set_pool cfg (<[j := kj (Some v)]> p))
        else None
    | _ => None
    end) (pool (rt cfg)))
  ++ match main_recv (main cfg) with
     | Some (c', km) =>
         if decide (c' = c)
         then [Config (km (Some v)) (Runtime p (chans (rt cfg)) (wgs (rt cfg))) false]
         else []
     | None => []
     end.

(** The steps goroutine [i], in state [gi], can lead. *)
Definition moves (cfg : config) (i : nat) (gi : goroutine) : list config :=
  let p := pool (rt cfg) in
  let cs := chans (rt cfg) in
  let ws := wgs (rt cfg) in
  match next gi with
  | ASend c v ki =>
      match cs !! c with
      | Some true => [crash cfg]
      | Some false => handoffs cfg i c v ki
      | None => []
      end
  | ARecv c kj =>
      match cs !! c with
      | Some true => [set_pool cfg (<[i := kj None]> p)]
      | _ => []
      end
  | AClose c ki =>
      match cs !! c with
      | Some true => [crash cfg]
      | Some false =>
          [Config (main cfg) (Runtime (<[i := ki]> p) (<[c := true]> cs) ws) false]
      | None => []
      end
  | ADone wg ki =>
      match ws !! wg with
      | Some n =>
          if bool_decide (0 < n)%Z
          then [Config (main cfg)
                  (Runtime (<[i := ki]> p) cs (<[wg := (n - 1)%Z]> ws)) false]
          else [crash cfg]
      | None => []
      end
  | AWait wg ki =>
      match ws !! wg with
      | Some 0%Z => [set_pool cfg (<[i := ki]> p)]
      | _ => []
      end
  | AHalt => []
  end.

(** The steps the caller can take alone. *)
Definition main_moves (cfg : config) : list config :=
  match call_step cfg with Some cfg' => [cfg'] | None => [] end
  ++ match main_recv (main cfg) with
     | Some (c, km) =>
         match chans (rt cfg) !! c with
         | Some true => [Config (km None) (rt cfg) false]
         | _ => []
         end
     | None => []
     end.

Definition successors (cfg : config) : list config :=
  if panicked cfg then []
  else main_moves cfg ++ mjoin (imap (moves cfg) (pool (rt cfg))).

(** ** Running a program

    The scheduler is an oracle: its [t]-th answer selects, modulo their
    number, the step taken at time [t].  The run ends when the caller has
    returned; it yields nothing when the program panics, when no step is
    enabled (all goroutines asleep) or when the fuel is spent. *)
Definition returned (cfg : config) : option value :=
  if panicked cfg then None
  else match main cfg with MReturn v => Some v | _ => None end.

Fixpoint exec (sched : nat -> nat) (fuel : nat) (cfg : config) : option value :=
  match returned cfg with
  | Some v => Some v
  | None =>
      match fuel with
      | O => None
      | S fuel' =>
          let nexts := successors cfg in
          match nexts !! (sched 0 `mod` length nexts) with
          | Some cfg' => exec (λ t, sched (S t)) fuel' cfg'
          | None => None
          end
      end
  end.

(** The program [NewStream(source).calls...final()], about to start. *)
Definition start (c : chain) : config :=
  Config (MStart c) (Runtime [] [] []) false.

(** ** What a sequential chain denotes: the list functions the stages stand
    for, used to state what a run returns. *)
Definition limit (n : Z) (l : list T) : list T := take (Z.to_nat n) l.

Definition denote1 (c : call) (l : list T) : list T :=
  match c with
  | CFilter predicate => List.filter predicate l
  | CMap predicate => List.map predicate l
  | CFlatMap transform => List.flat_map transform l
  | CLimit n => limit n l
  | CParallel _ => l
  end.

Definition denote (cs : list call) (l : list T) : list T :=
  fold_left (λ acc c, denote1 c acc) cs l.

Definition sequential (c : call) : bool :=
  match c with CParallel _ => false | _ => true end.

End stream.

End Stream.

(* ================================================================== *)
(** * Facts about package compress *)
(* ================================================================== *)

Module CompressFacts.

Import Compress.

Section facts.

Context {T : Type}.
Variable zero : T.
Variable growcap : nat -> nat.

Abbreviation mem := (list (list T)).
Abbreviation append := (append zero growcap).

Implicit Types (m : mem) (s r : slice) (c : @Compress) (xs acc : list T).

(** ** Reading through a valid header *)

Lemma length_elems m s : valid m s -> length (elems m s) = len s.
Proof.
  intros [Hl Hc]. unfold elems.
  rewrite length_take, length_drop. lia.
Qed.

Lemma index_elems m s (i : nat) :
  i < len s -> index m s (Z.of_nat i) = elems m s !! i.
Proof.
  intros Hi. unfold index, elems.
  rewrite bool_decide_true by lia.
  rewrite Nat2Z.id, lookup_take_lt, lookup_drop by lia. done.
Qed.

Lemma index_Some m s (i : nat) :
  valid m s -> i < len s -> is_Some (index m s (Z.of_nat i)).
Proof.
  intros Hv Hi. rewrite index_elems by done.
  apply lookup_lt_is_Some. rewrite length_elems by done. done.
Qed.

Lemma valid_base_lt m s : valid m s -> 0 < len s -> base s < length m.
Proof.
  intros [Hl Hc] Hpos. unfold array in Hc.
  destruct (m !! base s) as [a|] eqn:E.
  - by eapply lookup_lt_Some.
  - simpl in Hc. lia.
Qed.

(** ** [append] *)

Lemma array_alter_eq m b (f : list T -> list T) :
  b < length m -> array (alter f b m) b = f (array m b).
Proof.
  intros Hb. unfold array. rewrite list_lookup_alter_eq.
  destruct (lookup_lt_is_Some_2 m b Hb) as [a ->]. done.
Qed.

Lemma array_alter_ne m b b' (f : list T -> list T) :
  b ≠ b' -> array (alter f b m) b' = array m b'.
Proof. intros Hb. unfold array. by rewrite list_lookup_alter_ne. Qed.

Lemma array_app_old m a b : b < length m -> array (m ++ [a]) b = array m b.
Proof. intros Hb. unfold array. by rewrite lookup_app_l. Qed.

Lemma array_app_new m a : array (m ++ [a]) (length m) = a.
Proof.
  unfold array. rewrite lookup_app_r by lia.
  by rewrite Nat.sub_diag.
Qed.

(** The slice that [append] returns shows the old elements and the new one. *)
Lemma append_elems m s v m' s' :
  valid m s -> append m s v = (m', s') ->
  valid m' s' ∧ elems m' s' = elems m s ++ [v] ∧
  length m ≤ length m' ∧
  (base s' = base s ∧ off s' = off s ∨ length m ≤ base s').
Proof.
  intros [Hl Hc] Happ. unfold Compress.append in Happ.
  case_bool_decide as Hlt; simplify_eq.
  - assert (Hb : base s < length m).
    { unfold array in Hc. destruct (m !! base s) eqn:E.
      - by eapply lookup_lt_Some.
      - simpl in Hc. lia. }
    unfold valid, elems; simpl. rewrite array_alter_eq by done.
    rewrite length_insert, length_alter. split_and!; [lia|lia| |lia|by left].
    rewrite drop_insert_ge by lia.
    replace (off s + len s - off s) with (len s) by lia.
    assert (Hlen : len s < length (drop (off s) (array m (base s)))).
    { rewrite length_drop. lia. }
    erewrite take_S_r by (by apply list_lookup_insert_eq).
    by rewrite take_insert_ge by lia.
  - assert (Hle : length (elems m s) = len s).
    { apply length_elems. by split. }
    unfold valid; simpl. rewrite array_app_new.
    rewrite length_app; simpl. rewrite length_replicate, Hle.
    split_and!; [lia|lia| |rewrite length_app; simpl; lia|right; lia].
    unfold elems at 1; simpl. rewrite array_app_new, drop_0.
    rewrite <- Hle at 1.
    rewrite (cons_middle v), app_assoc.
    replace (S (length (elems m s))) with (length (elems m s ++ [v])).
    2:{ rewrite length_app; simpl. lia. }
    by rewrite take_app_length.
Qed.

(** Slices whose window ends before the cell written, or that live in
    another array, do not see the [append]. *)
Lemma append_frame m s v m' s' r :
  valid m s -> append m s v = (m', s') ->
  base r < length m ->
  (base r = base s -> off r + len r ≤ off s + len s) ->
  elems m' r = elems m r.
Proof.
  intros [Hl Hc] Happ Hr Hwin. unfold Compress.append in Happ.
  case_bool_decide as Hlt; simplify_eq.
  - unfold elems. destruct (decide (base s = base r)) as [Heq|Hne].
    + rewrite <- Heq. rewrite array_alter_eq by (rewrite Heq; done).
      specialize (Hwin (eq_sym Heq)).
      rewrite drop_insert_ge by lia.
      by rewrite take_insert_ge by lia.
    + by rewrite array_alter_ne.
  - unfold elems. by rewrite array_app_old.
Qed.

(** ** [FlatMap] *)

(** What holds at the head of both loops of [FlatMap]: the header [r] taken
    at loop entry still shows [xs], and the receiver shows [xs ++ acc]. *)
Definition flatmap_inv (r : slice) xs m c acc : Prop :=
  valid m (data c) ∧ base r < length m ∧
  (base r = base (data c) -> off r + len r ≤ off (data c) + len (data c)) ∧
  elems m r = xs ∧ elems m (data c) = xs ++ acc.

Lemma FlatMap_inner_inv r xs ts : forall m c acc,
  flatmap_inv r xs m c acc ->
  flatmap_inv r xs (FlatMap_inner zero growcap ts m c).1
    (FlatMap_inner zero growcap ts m c).2 (acc ++ ts).
Proof.
  induction ts as [|t ts IH]; intros m c acc Hinv; simpl.
  - by rewrite app_nil_r.
  - destruct (append m (data c) t) as [m' d] eqn:Happ.
    rewrite (cons_middle t), app_assoc. apply IH.
    destruct Hinv as (Hv & Hr & Hwin & Hxs & Hc).
    destruct (append_elems _ _ _ _ _ Hv Happ) as (Hv' & He' & Hlen & Hpos).
    unfold flatmap_inv; simpl. split_and!; [done|lia| | |].
    + intros Hb. destruct Hpos as [[Hb' Ho']|Hge]; [|lia].
      rewrite Hb' in Hb. specialize (Hwin Hb).
      assert (len d = S (len (data c))).
      { apply (f_equal (@length T)) in He'.
        rewrite length_app, !length_elems in He' by done. simpl in He'. lia. }
      lia.
    + rewrite <- Hxs. eapply append_frame; eauto.
    + by rewrite He', Hc, <- app_assoc.
Qed.

Lemma FlatMap_loop_inv transfrom r xs : forall n k m c acc,
  k + n = len r -> length xs = len r ->
  flatmap_inv r xs m c acc ->
  exists m' c',
    FlatMap_loop zero growcap transfrom r (Z.of_nat <$> seq k n) m c = Some (m', c') ∧
    flatmap_inv r xs m' c' (acc ++ List.flat_map transfrom (drop k xs)).
Proof.
  induction n as [|n IH]; intros k m c acc Hk Hlen Hinv; simpl.
  - exists m, c. split; [done|].
    rewrite drop_ge by lia. simpl. by rewrite app_nil_r.
  - assert (Hlt : k < len r) by lia.
    rewrite index_elems by done.
    destruct Hinv as (Hv & Hr & Hwin & Hxs & Hc).
    rewrite Hxs.
    destruct (lookup_lt_is_Some_2 xs k) as [x Hx]; [lia|].
    rewrite Hx.
    pose proof (FlatMap_inner_inv r xs (transfrom x) m c acc) as Hin.
    destruct (FlatMap_inner zero growcap (transfrom x) m c) as [m1 c1].
    simpl in Hin.
    destruct (IH (S k) m1 c1 (acc ++ transfrom x)) as (m' & c' & Hrun & Hinv');
      [lia|done| |].
    { apply Hin. by unfold flatmap_inv. }
    exists m', c'. split; [done|].
    rewrite (drop_S _ _ _ Hx). simpl. by rewrite app_assoc.
Qed.

(** ** [Limit] *)

Definition limit_inv (r : slice) xs m (result : slice) (k : nat) (L : nat) : Prop :=
  valid m result ∧ base r < length m ∧ base r < base result ∧
  elems m r = xs ∧ elems m result = replicate L zero ++ take k xs.

Lemma Limit_loop_inv (n : Z) r xs L : forall j k m result,
  k + j = len r -> length xs = len r ->
  (Z.of_nat k ≤ Z.max 0 n)%Z ->
  limit_inv r xs m result k L ->
  exists m' result',
    Limit_loop zero growcap n r (Z.of_nat <$> seq k j) m result (Z.of_nat k)
      = Some (m', result') ∧
    elems m' result' = replicate L zero ++ take (Z.to_nat n) xs.
Proof.
  induction j as [|j IH]; intros k m result Hk Hlen Hcount Hinv; simpl.
  - exists m, result. split; [done|].
    destruct Hinv as (_ & _ & _ & _ & ->).
    rewrite !take_ge; [done|lia|lia].
  - assert (Hlt : k < len r) by lia.
    rewrite index_elems by done.
    destruct Hinv as (Hv & Hr & Hbase & Hxs & Hres).
    rewrite Hxs.
    destruct (lookup_lt_is_Some_2 xs k) as [x Hx]; [lia|].
    rewrite Hx. case_bool_decide as Hbreak.
    + exists m, result. split; [done|].
      rewrite Hres. do 2 f_equal. lia.
    + destruct (append m result x) as [m1 result1] eqn:Happ.
      destruct (append_elems _ _ _ _ _ Hv Happ) as (Hv' & He' & Hlen' & Hpos).
      replace (Z.of_nat k + 1)%Z with (Z.of_nat (S k)) by lia.
      apply IH; [lia|done|lia|].
      unfold limit_inv. split_and!; [done|lia| | |].
      * destruct Hpos as [[-> _]|Hge]; lia.
      * rewrite <- Hxs. eapply append_frame; eauto. lia.
      * rewrite He', Hres, <- app_assoc. f_equal.
        by erewrite take_S_r.
Qed.

(** ** The claims about the wrapper *)

(** The index [At] reads after clamping. *)
Definition clamp (L : nat) (i : Z) : nat :=
  Z.to_nat (Z.max 0 (Z.min i (Z.of_nat L - 1))).

(** C8: the bounds-related edge cases of the wrapper never fail.  On a
    non-empty receiver [At i] returns the element at [i] clamped into
    [0, len-1], for every integer [i]; on an empty receiver [At], [Head],
    [Tail], [Pop], [Shift] and [Find] all return the zero value of [T]
    (and [Pop] and [Shift] leave the receiver as it is). *)
Theorem bounds_edge_cases_never_fail m c :
  valid m (data c) ->
  (len (data c) ≠ 0 ->
     forall i : Z,
       is_Some (At zero m c i) ∧
       At zero m c i = Collect m c !! clamp (len (data c)) i ∧
       clamp (len (data c)) i < len (data c)) ∧
  (len (data c) = 0 ->
     (forall i : Z, At zero m c i = Some zero) ∧
     Head zero m c = Some zero ∧
     Tail zero m c = Some zero ∧
     Pop zero m c = Some (zero, c) ∧
     Shift zero m c = Some (zero, c) ∧
     (forall predicate, Find zero predicate m c = Some zero)).
Proof.
  intros Hv. split.
  - intros Hne i.
    assert (Hc : clamp (len (data c)) i < len (data c)).
    { unfold clamp. lia. }
    assert (Hat : At zero m c i = index m (data c) (Z.of_nat (clamp (len (data c)) i))).
    { unfold At. rewrite bool_decide_false by done.
      f_equal. unfold clamp. repeat case_bool_decide; lia. }
    rewrite Hat. split_and!; [by apply index_Some|by apply index_elems|done].
  - intros Hz. unfold At, Head, Tail, Pop, Shift, Find.
    rewrite !bool_decide_true by done. done.
Qed.

(** C9: on a receiver whose data is non-empty, of length [L], and for
    [n >= 0], [c.Limit(n).Collect()] has length [L + min(n, L)]: [L] zero
    values (the result is made with length [L]) followed by the first
    [min(n, L)] elements of the receiver. *)
Theorem Limit_keeps_presized_zeros (n : Z) m c :
  valid m (data c) ->
  len (data c) ≠ 0 ->
  (0 ≤ n)%Z ->
  exists m' c',
    Limit zero growcap n m c = Some (m', c') ∧
    let L := length (Collect m c) in
    L = len (data c) ∧
    length (Collect m' c') = L + Z.to_nat n `min` L ∧
    Collect m' c' = replicate L zero ++ take (Z.to_nat n `min` L) (Collect m c).
Proof.
  intros Hv Hne Hn. unfold Limit, Collect.
  rewrite bool_decide_false by done. unfold make.
  pose proof (length_elems _ _ Hv) as Hlen.
  pose proof (valid_base_lt _ _ Hv ltac:(lia)) as Hb.
  destruct (Limit_loop_inv n (data c) (elems m (data c)) (len (data c))
              (len (data c)) 0 (m ++ [replicate (len (data c)) zero])
              (Slice (length m) 0 (len (data c)) (len (data c))))
    as (m' & result' & Hrun & Hres); [lia|done|lia| |].
  { unfold limit_inv, valid, elems; simpl.
    rewrite array_app_new, array_app_old by done.
    rewrite length_replicate, length_app, drop_0, take_0, app_nil_r.
    split_and!; [lia|lia|simpl; lia|lia|done|].
    rewrite take_ge; [done|]. by rewrite length_replicate. }
  unfold range_indices. change (Z.of_nat 0) with 0%Z in Hrun. rewrite Hrun.
  exists m', {| data := result' |}. simpl. split; [done|].
  rewrite Hres, Hlen. split_and!; [done| |].
  - rewrite length_app, length_replicate, !length_take. lia.
  - f_equal. rewrite <- Hlen at 1. by rewrite <- take_take, firstn_all.
Qed.

(** C10: on a receiver whose data is the non-empty sequence [x1..xk],
    [FlatMap f] leaves the receiver showing [x1..xk] followed by
    [f x1 ++ ... ++ f xk]: the originals stay in place, and the loop covers
    the [k] original elements only, although the data grows under it. *)
Theorem FlatMap_appends_after_originals (transfrom : T -> list T) m c :
  valid m (data c) ->
  len (data c) ≠ 0 ->
  exists m' c',
    FlatMap zero growcap transfrom m c = Some (m', c') ∧
    Collect m' c' = Collect m c ++ List.flat_map transfrom (Collect m c).
Proof.
  intros Hv Hne. unfold FlatMap, Collect.
  rewrite bool_decide_false by done.
  pose proof (length_elems _ _ Hv) as Hlen.
  pose proof (valid_base_lt _ _ Hv ltac:(lia)) as Hb.
  destruct (FlatMap_loop_inv transfrom (data c) (elems m (data c))
              (len (data c)) 0 m c [])
    as (m' & c' & Hrun & Hinv); [lia|done| |].
  { unfold flatmap_inv. rewrite app_nil_r. split_and!; done. }
  exists m', c'. split; [done|].
  destruct Hinv as (_ & _ & _ & _ & ->). by rewrite drop_0.
Qed.

(** ** Loops that only read *)

Lemma index_read m s xs (k : nat) :
  elems m s = xs -> length xs = len s -> k < len s ->
  exists x, xs !! k = Some x ∧ index m s (Z.of_nat k) = Some x.
Proof.
  intros Hxs Hlen Hk.
  destruct (lookup_lt_is_Some_2 xs k) as [x Hx]; [lia|].
  exists x. split; [done|]. by rewrite index_elems, Hxs.
Qed.

Lemma Find_loop_spec (predicate : T -> bool) m r xs :
  elems m r = xs -> length xs = len r ->
  forall n k, k + n = len r ->
    Find_loop zero predicate m r (Z.of_nat <$> seq k n)
    = Some (default zero (List.find predicate (drop k xs))).
Proof.
  intros Hxs Hlen. induction n as [|n IH]; intros k Hk; simpl.
  - by rewrite drop_ge by lia.
  - destruct (index_read m r xs k) as (x & Hx & ->); [done|done|lia|].
    rewrite (drop_S _ _ _ Hx). simpl.
    destruct (predicate x); [done|]. apply IH. lia.
Qed.

Lemma Every_loop_spec (predicate : T -> bool) m r xs :
  elems m r = xs -> length xs = len r ->
  forall n k, k + n = len r ->
    Every_loop predicate m r (Z.of_nat <$> seq k n)
    = Some (forallb predicate (drop k xs)).
Proof.
  intros Hxs Hlen. induction n as [|n IH]; intros k Hk; simpl.
  - by rewrite drop_ge by lia.
  - destruct (index_read m r xs k) as (x & Hx & ->); [done|done|lia|].
    rewrite (drop_S _ _ _ Hx). simpl.
    destruct (predicate x); simpl; [|done]. apply IH. lia.
Qed.

Lemma Reduce_loop_spec (reducer : T -> T -> T) m r xs :
  elems m r = xs -> length xs = len r ->
  forall n k result, k + n = len r ->
    Reduce_loop reducer m r (Z.of_nat <$> seq k n) result
    = Some (fold_left reducer (drop k xs) result).
Proof.
  intros Hxs Hlen. induction n as [|n IH]; intros k result Hk; simpl.
  - by rewrite drop_ge by lia.
  - destruct (index_read m r xs k) as (x & Hx & ->); [done|done|lia|].
    rewrite (drop_S _ _ _ Hx). simpl. apply IH. lia.
Qed.

(** ** Writing through a header *)

Lemma store_elems m s (i : nat) v :
  valid m s -> i < len s ->
  exists m',
    store m s (Z.of_nat i) v = Some m' ∧
    elems m' s = <[i := v]> (elems m s) ∧
    valid m' s ∧ length m' = length m ∧
    forall b, b ≠ base s -> array m' b = array m b.
Proof.
  intros Hv Hi. pose proof Hv as [Hl Hc].
  pose proof (valid_base_lt _ _ Hv ltac:(lia)) as Hb.
  unfold store. rewrite bool_decide_true by lia. rewrite Nat2Z.id.
  eexists. split; [done|]. split_and!.
  - unfold elems. rewrite array_alter_eq by done.
    rewrite drop_insert_ge by lia.
    replace (off s + i - off s) with i by lia.
    by rewrite take_insert_lt by lia.
  - unfold valid. rewrite array_alter_eq by done.
    by rewrite length_insert.
  - apply length_alter.
  - intros b Hne. by apply array_alter_ne.
Qed.

(** [append] to a slice that lives beyond the first [n] arrays leaves
    those arrays alone. *)
Lemma append_keeps (n : nat) m s v m' s' :
  append m s v = (m', s') ->
  n ≤ length m -> n ≤ base s ->
  n ≤ length m' ∧ n ≤ base s' ∧
  forall b, b < n -> array m' b = array m b.
Proof.
  intros Happ Hm Hs. unfold Compress.append in Happ.
  case_bool_decide; simplify_eq/=.
  - rewrite length_alter. split_and!; [done|done|].
    intros b Hb. apply array_alter_ne. lia.
  - rewrite length_app. simpl. split_and!; [lia|lia|].
    intros b Hb. apply array_app_old. lia.
Qed.

Lemma elems_same_array m m' s :
  array m' (base s) = array m (base s) -> elems m' s = elems m s.
Proof. unfold elems. by intros ->. Qed.

(** ** [Filter] *)

Lemma Filter_loop_inv (predicate : T -> bool) (m0 : mem) r xs :
  valid m0 r -> base r < length m0 -> elems m0 r = xs ->
  forall n k m fd,
    k + n = len r ->
    valid m fd -> length m0 ≤ length m -> length m0 ≤ base fd ->
    (forall b, b < length m0 -> array m b = array m0 b) ->
    elems m fd = List.filter predicate (take k xs) ->
    exists m' fd',
      Filter_loop zero growcap predicate r (Z.of_nat <$> seq k n) m fd
        = Some (m', fd') ∧
      valid m' fd' ∧ length m0 ≤ length m' ∧ length m0 ≤ base fd' ∧
      (forall b, b < length m0 -> array m' b = array m0 b) ∧
      elems m' fd' = List.filter predicate xs.
Proof.
  intros Hvr Hbr Hxs.
  pose proof (length_elems _ _ Hvr) as Hlen. rewrite Hxs in Hlen.
  induction n as [|n IH]; intros k m fd Hk Hv Hm Hfd Hsame Hres; simpl.
  - exists m, fd. split_and!; try done.
    by rewrite Hres, take_ge by lia.
  - assert (Hr : elems m r = xs).
    { rewrite <- Hxs. apply elems_same_array. by apply Hsame. }
    destruct (index_read m r xs k) as (x & Hx & ->); [done|done|lia|].
    assert (Htake : List.filter predicate (take (S k) xs)
                    = List.filter predicate (take k xs)
                      ++ (if predicate x then [x] else [])).
    { rewrite (take_S_r _ _ _ Hx), List.filter_app. simpl.
      by destruct (predicate x). }
    destruct (predicate x) eqn:Hp.
    + destruct (append m fd x) as [m1 fd1] eqn:Happ.
      destruct (append_elems _ _ _ _ _ Hv Happ) as (Hv1 & He1 & _ & _).
      destruct (append_keeps (length m0) _ _ _ _ _ Happ Hm Hfd)
        as (Hm1 & Hfd1 & Hsame1).
      apply IH; try done; [lia| |].
      * intros b Hb. rewrite Hsame1 by done. by apply Hsame.
      * by rewrite He1, Hres, Htake.
    + apply IH; try done; [lia|].
      by rewrite Hres, Htake, app_nil_r.
Qed.

(** ** [Map] *)

Lemma map_step (f : T -> T) (xs : list T) k x :
  xs !! k = Some x ->
  <[k := f x]> (List.map f (take k xs) ++ drop k xs)
  = List.map f (take (S k) xs) ++ drop (S k) xs.
Proof.
  intros Hx. pose proof (lookup_lt_Some _ _ _ Hx) as Hk.
  assert (Hl : length (List.map f (take k xs)) = k).
  { rewrite length_map, length_take. lia. }
  rewrite <- Hl at 1. rewrite insert_app_r_alt by lia.
  rewrite Nat.sub_diag, (drop_S _ _ _ Hx). simpl.
  rewrite (take_S_r _ _ _ Hx), List.map_app. simpl.
  by rewrite <- app_assoc.
Qed.

Lemma Map_loop_inv (f : T -> T) (m0 : mem) c xs :
  length xs = len (data c) ->
  forall n k m,
    k + n = len (data c) ->
    valid m (data c) -> length m = length m0 ->
    (forall b, b ≠ base (data c) -> array m b = array m0 b) ->
    elems m (data c) = List.map f (take k xs) ++ drop k xs ->
    exists m',
      Map_loop f (data c) (Z.of_nat <$> seq k n) m c = Some m' ∧
      valid m' (data c) ∧ length m' = length m0 ∧
      (forall b, b ≠ base (data c) -> array m' b = array m0 b) ∧
      elems m' (data c) = List.map f xs.
Proof.
  intros Hlen.
  induction n as [|n IH]; intros k m Hk Hv Hm Hsame Hres; simpl.
  - exists m. split_and!; try done.
    by rewrite Hres, take_ge, drop_ge, app_nil_r by lia.
  - assert (Hx : exists x, xs !! k = Some x).
    { apply lookup_lt_is_Some_2. lia. }
    destruct Hx as [x Hx].
    assert (Hread : index m (data c) (Z.of_nat k) = Some x).
    { rewrite index_elems, Hres by lia.
      rewrite lookup_app_r; rewrite length_map, length_take; [|lia].
      replace (k - k `min` length xs) with 0 by lia.
      by rewrite lookup_drop, Nat.add_0_r. }
    rewrite Hread.
    destruct (store_elems m (data c) k (f x) Hv) as (m1 & -> & He & Hv1 & Hl1 & Hs1);
      [lia|].
    apply IH; try done; [lia|congruence| |].
    + intros b Hb. rewrite Hs1 by done. by apply Hsame.
    + by rewrite He, Hres, map_step.
Qed.

Lemma elems_empty m s : len s = 0 -> elems m s = [].
Proof. unfold elems. by intros ->. Qed.

Lemma Filter_spec (predicate : T -> bool) m c :
  valid m (data c) ->
  exists m' c',
    Filter zero growcap predicate m c = Some (m', c') ∧
    valid m' (data c') ∧
    elems m' (data c') = List.filter predicate (elems m (data c)) ∧
    length m ≤ length m' ∧
    (forall b, b < length m -> array m' b = array m b) ∧
    (len (data c) ≠ 0 -> length m ≤ base (data c')).
Proof.
  intros Hv. unfold Filter. case_bool_decide as Hz.
  - exists m, c. rewrite (elems_empty _ _ Hz). by split_and!.
  - unfold make_cap.
    pose proof (valid_base_lt _ _ Hv ltac:(lia)) as Hb.
    destruct (Filter_loop_inv predicate m (data c) (elems m (data c)) Hv Hb eq_refl
                (len (data c)) 0 (m ++ [replicate (len (data c)) zero])
                (Slice (length m) 0 0 (len (data c))))
      as (m' & fd' & Hrun & Hv' & Hm' & Hfd' & Hsame & Hres); simpl.
    + done.
    + unfold valid; simpl. rewrite array_app_new, length_replicate. lia.
    + rewrite length_app. lia.
    + done.
    + intros b Hlt. by apply array_app_old.
    + by rewrite elems_empty.
    + unfold range_indices. simpl in Hrun. rewrite Hrun.
      exists m', {| data := fd' |}. by split_and!.
Qed.

Lemma Map_spec (f : T -> T) m c :
  valid m (data c) ->
  exists m',
    Map f m c = Some (m', c) ∧
    valid m' (data c) ∧
    elems m' (data c) = List.map f (elems m (data c)) ∧
    length m' = length m ∧
    (forall b, b ≠ base (data c) -> array m' b = array m b).
Proof.
  intros Hv. unfold Map. case_bool_decide as Hz.
  - exists m. rewrite (elems_empty _ _ Hz). by split_and!.
  - destruct (Map_loop_inv f m c (elems m (data c)) (length_elems _ _ Hv)
                (len (data c)) 0 m)
      as (m' & Hrun & Hv' & Hl & Hsame & Hres); try done.
    unfold range_indices. rewrite Hrun. exists m'. by split_and!.
Qed.

Lemma New_spec m d :
  valid m d ->
  exists m0 c0,
    New zero m d = (m0, c0) ∧ valid m0 (data c0) ∧
    elems m0 (data c0) = elems m d ∧
    length m ≤ length m0 ∧
    (forall b, b < length m -> array m0 b = array m b) ∧
    (len d ≠ 0 -> m0 = m ∧ data c0 = d) ∧
    (len d = 0 -> len (data c0) = 0).
Proof.
  intros Hv. unfold New. case_bool_decide as Hz.
  - unfold make. eexists _, _. split; [done|]. simpl.
    rewrite (elems_empty m d Hz). rewrite length_app. simpl.
    split_and!; try done.
    + unfold valid; simpl. rewrite array_app_new. simpl. lia.
    + lia.
    + intros b Hb. by apply array_app_old.
  - exists m, {| data := d |}. by split_and!.
Qed.

Lemma Limit_loop_keeps (n : Z) r xs L (m0 : mem) : forall j k m result,
  k + j = len r -> length xs = len r ->
  (Z.of_nat k ≤ Z.max 0 n)%Z ->
  limit_inv r xs m result k L ->
  length m0 ≤ length m -> length m0 ≤ base result ->
  (forall b, b < length m0 -> array m b = array m0 b) ->
  exists m' result',
    Limit_loop zero growcap n r (Z.of_nat <$> seq k j) m result (Z.of_nat k)
      = Some (m', result') ∧
    elems m' result' = replicate L zero ++ take (Z.to_nat n) xs ∧
    (forall b, b < length m0 -> array m' b = array m0 b).
Proof.
  induction j as [|j IH]; intros k m result Hk Hlen Hcount Hinv Hm Hres Hsame;
    simpl.
  - exists m, result. split; [done|]. split; [|done].
    destruct Hinv as (_ & _ & _ & _ & ->).
    rewrite !take_ge; [done|lia|lia].
  - assert (Hlt : k < len r) by lia.
    rewrite index_elems by done.
    destruct Hinv as (Hv & Hr & Hbase & Hxs & Hel).
    rewrite Hxs.
    destruct (lookup_lt_is_Some_2 xs k) as [x Hx]; [lia|].
    rewrite Hx. case_bool_decide as Hbreak.
    + exists m, result. split; [done|]. split; [|done].
      rewrite Hel. do 2 f_equal. lia.
    + destruct (append m result x) as [m1 result1] eqn:Happ.
      destruct (append_elems _ _ _ _ _ Hv Happ) as (Hv' & He' & Hlen' & Hpos).
      destruct (append_keeps (length m0) _ _ _ _ _ Happ Hm Hres)
        as (Hm1 & Hres1 & Hsame1).
      replace (Z.of_nat k + 1)%Z with (Z.of_nat (S k)) by lia.
      apply IH; [lia|done|lia| |done|done|].
      * unfold limit_inv. split_and!; [done|lia| | |].
        -- destruct Hpos as [[-> _]|Hge]; lia.
        -- rewrite <- Hxs. eapply append_frame; eauto. lia.
        -- rewrite He', Hel, <- app_assoc. f_equal.
           by erewrite take_S_r.
      * intros b Hb. rewrite Hsame1 by done. by apply Hsame.
Qed.

Definition pair_up (i : nat) (x : T) : @entry T := (Some (Z.of_nat i), Some x).

Lemma Entries_loop_inv m r xs :
  elems m r = xs -> length xs = len r ->
  forall n k,
    k + n = len r ->
    Entries_loop r (Z.of_nat <$> seq k n) m
      (imap pair_up (take k xs) ++ replicate n (None, None))
    = Some (imap pair_up xs).
Proof.
  intros Hxs Hlen. induction n as [|n IH]; intros k Hk; simpl.
  - by rewrite app_nil_r, take_ge by lia.
  - destruct (index_read m r xs k) as (x & Hx & ->); [done|done|lia|].
    assert (Hl : length (imap pair_up (take k xs)) = k).
    { rewrite length_imap, length_take. lia. }
    rewrite bool_decide_true.
    2:{ rewrite length_app, Hl. simpl. lia. }
    rewrite Nat2Z.id.
    replace (<[k:=(Some (Z.of_nat k), Some x)]>
               (imap pair_up (take k xs) ++ (None, None) :: replicate n (None, None)))
      with (imap pair_up (take (S k) xs) ++ replicate n (None, None)).
    { apply IH. lia. }
    rewrite (insert_app_r_alt (imap pair_up (take k xs)) _ k) by (rewrite Hl; lia).
    rewrite Hl, Nat.sub_diag. simpl.
    rewrite (take_S_r _ _ _ Hx), imap_app. simpl.
    rewrite length_take, <- app_assoc. simpl.
    replace (k `min` length xs + 0) with k by lia. done.
Qed.

(** ** Further properties of the wrapper *)

(** X1: [Filter] leaves the receiver showing the elements that satisfy the
    predicate, in order, and builds them in a fresh array: every slice of
    the store it started from still shows what it showed. *)
Theorem Filter_collects_matching_in_fresh_array (predicate : T -> bool) m c :
  valid m (data c) ->
  exists m' c',
    Filter zero growcap predicate m c = Some (m', c') ∧
    Collect m' c' = List.filter predicate (Collect m c) ∧
    forall s, base s < length m -> elems m' s = elems m s.
Proof.
  intros Hv.
  destruct (Filter_spec predicate m c Hv)
    as (m' & c' & Hrun & _ & Hres & _ & Hsame & _).
  exists m', c'. split_and!; [done|done|].
  intros s Hs. apply elems_same_array. by apply Hsame.
Qed.

(** X2: [Map] overwrites the receiver's elements where they are: the
    header is unchanged, no array is allocated, the receiver shows the
    mapped elements, and the other arrays of the store are untouched. *)
Theorem Map_overwrites_in_place (f : T -> T) m c :
  valid m (data c) ->
  exists m',
    Map f m c = Some (m', c) ∧
    Collect m' c = List.map f (Collect m c) ∧
    length m' = length m ∧
    forall s, base s ≠ base (data c) -> elems m' s = elems m s.
Proof.
  intros Hv.
  destruct (Map_spec f m c Hv) as (m' & Hrun & _ & Hres & Hlen & Hsame).
  exists m'. split_and!; [done|done|done|].
  intros s Hs. apply elems_same_array. by apply Hsame.
Qed.

(** X3: [New(d).Map(f)] writes through to the caller: afterwards the
    caller's own slice [d] shows the mapped elements too. *)
Theorem New_Map_rewrites_caller_slice (f : T -> T) m d :
  valid m d ->
  exists m0 c0 m1,
    New zero m d = (m0, c0) ∧
    Map f m0 c0 = Some (m1, c0) ∧
    Collect m1 c0 = List.map f (elems m d) ∧
    elems m1 d = List.map f (elems m d).
Proof.
  intros Hv.
  destruct (New_spec m d Hv) as (m0 & c0 & Hnew & Hv0 & He0 & _ & _ & Hne & Hz).
  destruct (Map_spec f m0 c0 Hv0) as (m1 & Hrun & _ & Hres & _ & _).
  exists m0, c0, m1. unfold Collect. rewrite Hres, He0.
  split_and!; [done|done|done|].
  destruct (decide (len d = 0)) as [Hd|Hd].
  - by rewrite !(elems_empty _ d Hd).
  - destruct (Hne Hd) as [-> Hdata]. by rewrite <- Hdata, Hres.
Qed.

(** X4: [New(d).Filter(p).Map(f)] shows the mapped matching elements and
    leaves the caller's slice [d] as it was: [Filter] has moved the receiver
    to a fresh array before [Map] writes. *)
Theorem New_Filter_Map_spares_caller_slice
    (predicate : T -> bool) (f : T -> T) m d :
  valid m d ->
  exists m0 c0 m1 c1 m2,
    New zero m d = (m0, c0) ∧
    Filter zero growcap predicate m0 c0 = Some (m1, c1) ∧
    Map f m1 c1 = Some (m2, c1) ∧
    Collect m2 c1 = List.map f (List.filter predicate (elems m d)) ∧
    elems m2 d = elems m d.
Proof.
  intros Hv.
  destruct (New_spec m d Hv) as (m0 & c0 & Hnew & Hv0 & He0 & _ & _ & Hne & Hz).
  destruct (Filter_spec predicate m0 c0 Hv0)
    as (m1 & c1 & Hfil & Hv1 & He1 & _ & Hsame1 & Hfresh).
  destruct (Map_spec f m1 c1 Hv1) as (m2 & Hmap & _ & He2 & _ & Hsame2).
  exists m0, c0, m1, c1, m2. unfold Collect. rewrite He2, He1, He0.
  split_and!; [done|done|done|done|].
  destruct (decide (len d = 0)) as [Hd|Hd].
  - by rewrite !(elems_empty _ d Hd).
  - destruct (Hne Hd) as [-> Hdata]. rewrite Hdata in Hfresh.
    pose proof (valid_base_lt _ _ Hv ltac:(lia)) as Hb.
    apply elems_same_array.
    rewrite Hsame2 by (specialize (Hfresh Hd); lia).
    by apply Hsame1.
Qed.

(** X5: on a non-empty receiver, [Range(start, end)] with [end >= 0] keeps
    the elements at positions [start <= i < end] (both bounds clamped, empty
    when they cross), but with [end < 0] the slice expression panics. *)
Theorem Range_clamps_but_panics_on_negative_end (start end_ : Z) m c :
  valid m (data c) ->
  len (data c) ≠ 0 ->
  ((0 ≤ end_)%Z ->
     exists c', Range start end_ c = Some c' ∧ valid m (data c') ∧
       Collect m c' = drop (Z.to_nat start) (take (Z.to_nat end_) (Collect m c))) ∧
  ((end_ < 0)%Z -> Range start end_ c = None).
Proof.
  intros Hv Hne. pose proof Hv as [Hl Hc]. unfold Range, reslice, Collect.
  rewrite bool_decide_false by done. split.
  - intros He.
    set (e1 := Z.to_nat end_ `min` len (data c)).
    set (s2 := Z.to_nat start `min` e1).
    assert (He1 : (if bool_decide (end_ > Z.of_nat (len (data c)))%Z
                   then Z.of_nat (len (data c)) else end_) = Z.of_nat e1).
    { unfold e1. case_bool_decide; lia. }
    rewrite He1.
    assert (Hs2 : (if bool_decide
                        ((if bool_decide (start < 0)%Z then 0%Z else start)
                         > Z.of_nat e1)%Z
                   then Z.of_nat e1
                   else if bool_decide (start < 0)%Z then 0%Z else start)
                  = Z.of_nat s2).
    { unfold s2. repeat case_bool_decide; lia. }
    rewrite Hs2. rewrite bool_decide_true by (unfold s2, e1; lia).
    eexists. split; [done|]. simpl. rewrite Nat2Z.id.
    replace (Z.to_nat (Z.of_nat e1 - Z.of_nat s2)) with (e1 - s2) by lia.
    split.
    + unfold valid; simpl. unfold s2, e1. lia.
    + unfold elems; simpl.
      rewrite take_take. fold e1.
      rewrite <- drop_drop, take_drop_commute.
      replace (s2 + (e1 - s2)) with e1 by (unfold s2; lia).
      destruct (decide (Z.to_nat start ≤ e1)) as [Hle|Hgt].
      * by replace s2 with (Z.to_nat start) by (unfold s2; lia).
      * rewrite !drop_ge; [done| |]; rewrite length_take; unfold s2; lia.
  - intros He. rewrite bool_decide_false; [done|].
    repeat case_bool_decide; lia.
Qed.

(** X6: [Every] answers true exactly when the receiver is non-empty and
    all its elements satisfy the predicate; on an empty receiver it answers
    false. *)
Theorem Every_true_iff_nonempty_and_all (predicate : T -> bool) m c :
  valid m (data c) ->
  exists b,
    Every predicate m c = Some b ∧
    (b = true <->
     Collect m c ≠ [] ∧ forall x, x ∈ Collect m c -> predicate x = true).
Proof.
  intros Hv. pose proof (length_elems _ _ Hv) as Hlen.
  unfold Every, Collect. case_bool_decide as Hz.
  - exists false. split; [done|]. rewrite (elems_empty _ _ Hz).
    split; [done|]. by intros [? _].
  - unfold range_indices.
    rewrite (Every_loop_spec predicate m (data c) (elems m (data c)))
      by done || lia.
    rewrite drop_0. eexists. split; [done|].
    rewrite forallb_forall. split.
    + intros Hall. split.
      * intros Hnil. rewrite Hnil in Hlen. simpl in Hlen. lia.
      * intros x Hx. apply Hall. by apply list_elem_of_In.
    + intros [_ Hall] x Hx. apply Hall. by apply list_elem_of_In.
Qed.

(** X7: [Find] returns the first element that satisfies the predicate,
    and the zero value when there is none (or the receiver is empty). *)
Theorem Find_first_match_or_zero (predicate : T -> bool) m c :
  valid m (data c) ->
  Find zero predicate m c
  = Some (default zero (List.find predicate (Collect m c))).
Proof.
  intros Hv. pose proof (length_elems _ _ Hv) as Hlen.
  unfold Find, Collect. case_bool_decide as Hz.
  - by rewrite (elems_empty _ _ Hz).
  - unfold range_indices.
    rewrite (Find_loop_spec predicate m (data c) (elems m (data c)))
      by done || lia.
    by rewrite drop_0.
Qed.

(** X8: the wrapper's [Reduce] is a left fold of the reducer over the
    elements, starting from [inital]. *)
Theorem Reduce_is_left_fold (inital : T) (reducer : T -> T -> T) m c :
  valid m (data c) ->
  Reduce inital reducer m c
  = Some (fold_left reducer (Collect m c) inital).
Proof.
  intros Hv. pose proof (length_elems _ _ Hv) as Hlen.
  unfold Reduce, Collect, range_indices.
  rewrite (Reduce_loop_spec reducer m (data c) (elems m (data c)))
    by done || lia.
  by rewrite drop_0.
Qed.

(** X9: on a non-empty receiver [Pop] returns the element [Tail] shows
    and leaves the receiver showing the elements before it. *)
Theorem Pop_removes_what_Tail_shows m c :
  valid m (data c) ->
  len (data c) ≠ 0 ->
  exists x c',
    Pop zero m c = Some (x, c') ∧
    Tail zero m c = Some x ∧
    Collect m c = Collect m c' ++ [x] ∧
    valid m (data c').
Proof.
  intros Hv Hne. pose proof Hv as [Hl Hc].
  pose proof (length_elems _ _ Hv) as Hlen.
  unfold Pop, Tail, Collect. rewrite !bool_decide_false by done.
  replace (Z.of_nat (len (data c)) - 1)%Z with (Z.of_nat (len (data c) - 1))
    by lia.
  destruct (index_read m (data c) (elems m (data c)) (len (data c) - 1))
    as (x & Hx & ->); [done|done|lia|].
  eexists _, _. split_and!; [done|done| |].
  - unfold elems in *; simpl.
    apply lookup_take_Some in Hx as [Hx _].
    rewrite <- (take_S_r _ _ _ Hx). f_equal. lia.
  - unfold valid; simpl. lia.
Qed.

(** X10: on a non-empty receiver [Shift] returns the element [Head]
    shows and leaves the receiver showing the elements after it. *)
Theorem Shift_removes_what_Head_shows m c :
  valid m (data c) ->
  len (data c) ≠ 0 ->
  exists x c',
    Shift zero m c = Some (x, c') ∧
    Head zero m c = Some x ∧
    Collect m c = x :: Collect m c' ∧
    valid m (data c').
Proof.
  intros Hv Hne. pose proof Hv as [Hl Hc].
  pose proof (length_elems _ _ Hv) as Hlen.
  unfold Shift, Head, Collect. rewrite !bool_decide_false by done.
  destruct (index_read m (data c) (elems m (data c)) 0)
    as (x & Hx & Hi); [done|done|lia|].
  change (Z.of_nat 0) with 0%Z in Hi. rewrite Hi.
  eexists _, _. split_and!; [done|done| |].
  - unfold elems in *; simpl.
    apply lookup_take_Some in Hx as [Hx _]. rewrite lookup_drop in Hx.
    rewrite Nat.add_0_r in Hx. rewrite (drop_S _ _ _ Hx).
    by replace (len (data c)) with (S (len (data c) - 1)) at 1 by lia.
  - unfold valid; simpl. lia.
Qed.

(** X11: [At] with an index at or below the first position returns what
    [Head] returns, and with an index at or beyond the last position what
    [Tail] returns; this also holds on an empty receiver. *)
Theorem At_ends_are_Head_and_Tail (i : Z) m c :
  ((i ≤ 0)%Z -> At zero m c i = Head zero m c) ∧
  ((Z.of_nat (len (data c)) - 1 ≤ i)%Z -> At zero m c i = Tail zero m c).
Proof.
  unfold At, Head, Tail. case_bool_decide as Hz; [done|].
  split; intros Hi; f_equal; repeat case_bool_decide; lia.
Qed.

(** X12: [Limit] builds its result in fresh arrays: the slices of the
    store it started from, the receiver's among them, still show what they
    showed; and with [n <= 0] the result is the [L] zero values alone. *)
Theorem Limit_spares_receiver (n : Z) m c :
  valid m (data c) ->
  len (data c) ≠ 0 ->
  exists m' c',
    Limit zero growcap n m c = Some (m', c') ∧
    (forall s, base s < length m -> elems m' s = elems m s) ∧
    Collect m' c = Collect m c ∧
    ((n ≤ 0)%Z -> Collect m' c' = replicate (len (data c)) zero).
Proof.
  intros Hv Hne. unfold Limit, Collect.
  rewrite bool_decide_false by done. unfold make.
  pose proof (length_elems _ _ Hv) as Hlen.
  pose proof (valid_base_lt _ _ Hv ltac:(lia)) as Hb.
  destruct (Limit_loop_keeps n (data c) (elems m (data c)) (len (data c)) m
              (len (data c)) 0 (m ++ [replicate (len (data c)) zero])
              (Slice (length m) 0 (len (data c)) (len (data c))))
    as (m' & result' & Hrun & Hres & Hsame); [lia|done|lia| | | | |].
  { unfold limit_inv, valid, elems; simpl.
    rewrite array_app_new, array_app_old by done.
    rewrite length_replicate, length_app, drop_0, take_0, app_nil_r.
    split_and!; [lia|lia|simpl; lia|lia|done|].
    rewrite take_ge; [done|]. by rewrite length_replicate. }
  { rewrite length_app. lia. }
  { done. }
  { intros b Hlt. by apply array_app_old. }
  unfold range_indices. change (Z.of_nat 0) with 0%Z in Hrun. rewrite Hrun.
  exists m', {| data := result' |}. simpl.
  assert (Hall : forall s, base s < length m -> elems m' s = elems m s).
  { intros s Hs. apply elems_same_array. by apply Hsame. }
  split_and!; [done|done|by apply Hall|].
  intros Hn. rewrite Hres. replace (Z.to_nat n) with 0 by lia.
  by rewrite take_0, app_nil_r.
Qed.

(** X13: [Entries] pairs every element with its index, in order. *)
Theorem Entries_pairs_index_with_element m c :
  valid m (data c) ->
  Entries m c
  = Some (imap (λ i x, (Some (Z.of_nat i), Some x)) (Collect m c)).
Proof.
  intros Hv. pose proof (length_elems _ _ Hv) as Hlen.
  unfold Entries, Collect. case_bool_decide as Hz.
  - rewrite (elems_empty _ _ Hz), Hz. done.
  - unfold range_indices.
    pose proof (Entries_loop_inv m (data c) (elems m (data c)) eq_refl Hlen
                  (len (data c)) 0 ltac:(lia)) as Hrun.
    rewrite take_0 in Hrun. simpl in Hrun. by rewrite Hrun.
Qed.

End facts.

(** Concrete instances, on a store holding one array of integers. *)

Lemma bounds_edge_cases_never_fail_witness :
  (is_Some (At 0%Z [[4; 5; 6]%Z] {| data := Slice 0 0 3 3 |} 7) ∧
   At 0%Z [[4; 5; 6]%Z] {| data := Slice 0 0 3 3 |} 7 = Some 6%Z) ∧
  Pop 0%Z [[4; 5; 6]%Z] {| data := Slice 0 1 0 2 |}
    = Some (0%Z, {| data := Slice 0 1 0 2 |}).
Proof.
  split.
  - destruct (bounds_edge_cases_never_fail 0%Z [[4; 5; 6]%Z]
                {| data := Slice 0 0 3 3 |}) as [Hne _].
    { split; simpl; lia. }
    destruct (Hne ltac:(simpl; lia) 7%Z) as (Hs & He & _).
    split; [exact Hs | exact He].
  - destruct (bounds_edge_cases_never_fail 0%Z [[4; 5; 6]%Z]
                {| data := Slice 0 1 0 2 |}) as [_ Hz].
    { split; simpl; lia. }
    destruct (Hz eq_refl) as (_ & _ & _ & Hpop & _).
    exact Hpop.
Defined.

Lemma Limit_keeps_presized_zeros_witness :
  exists m' c',
    Limit 0%Z (λ k, 2 * k) 2 [[4; 5; 6]%Z] {| data := Slice 0 0 3 3 |} = Some (m', c') ∧
    let L := length (Collect [[4; 5; 6]%Z] {| data := Slice 0 0 3 3 |}) in
    L = 3 ∧
    length (Collect m' c') = L + Z.to_nat 2 `min` L ∧
    Collect m' c' = replicate L 0%Z ++
      take (Z.to_nat 2 `min` L) (Collect [[4; 5; 6]%Z] {| data := Slice 0 0 3 3 |}).
Proof.
  apply (Limit_keeps_presized_zeros 0%Z (λ k, 2 * k) 2 [[4; 5; 6]%Z] {| data := Slice 0 0 3 3 |}).
  - split; simpl; lia.
  - simpl; lia.
  - lia.
Defined.

Lemma FlatMap_appends_after_originals_witness :
  exists m' c',
    FlatMap 0%Z (λ k, 2 * k) (λ x, [x; x]) [[4; 5; 6; 0]%Z]
      {| data := Slice 0 0 3 4 |} = Some (m', c') ∧
    Collect m' c' =
      Collect [[4; 5; 6; 0]%Z] {| data := Slice 0 0 3 4 |} ++
      List.flat_map (λ x, [x; x]) (Collect [[4; 5; 6; 0]%Z] {| data := Slice 0 0 3 4 |}).
Proof.
  apply (FlatMap_appends_after_originals 0%Z (λ k, 2 * k) (λ x, [x; x]) [[4; 5; 6; 0]%Z]
           {| data := Slice 0 0 3 4 |}).
  - split; simpl; lia.
  - simpl; lia.
Defined.

(** Further instances: the integers 1 to 10 of the package's test, in one
    array. *)

Definition testData : list (list Z) := [[1; 2; 3; 4; 5; 6; 7; 8; 9; 10]%Z].
Definition testSlice : slice := Slice 0 0 10 10.

Lemma Filter_collects_matching_in_fresh_array_witness :
  exists m' c',
    Filter 0%Z (λ k, 2 * k) Z.even testData {| data := testSlice |} = Some (m', c') ∧
    Collect m' c' = List.filter Z.even (Collect testData {| data := testSlice |}) ∧
    forall s, base s < length testData -> elems m' s = elems testData s.
Proof.
  apply (Filter_collects_matching_in_fresh_array 0%Z (λ k, 2 * k) Z.even
           testData {| data := testSlice |}).
  split; simpl; lia.
Defined.

Lemma Map_overwrites_in_place_witness :
  exists m',
    Map (Z.mul 2) testData {| data := testSlice |}
      = Some (m', {| data := testSlice |}) ∧
    Collect m' {| data := testSlice |}
      = List.map (Z.mul 2) (Collect testData {| data := testSlice |}) ∧
    length m' = length testData ∧
    forall s, base s ≠ base testSlice -> elems m' s = elems testData s.
Proof.
  apply (Map_overwrites_in_place (Z.mul 2) testData {| data := testSlice |}).
  split; simpl; lia.
Defined.

Lemma New_Map_rewrites_caller_slice_witness :
  exists m0 c0 m1,
    New 0%Z testData testSlice = (m0, c0) ∧
    Map (Z.mul 2) m0 c0 = Some (m1, c0) ∧
    Collect m1 c0 = List.map (Z.mul 2) (elems testData testSlice) ∧
    elems m1 testSlice = List.map (Z.mul 2) (elems testData testSlice).
Proof.
  apply (New_Map_rewrites_caller_slice 0%Z (Z.mul 2) testData testSlice).
  split; simpl; lia.
Defined.

Lemma New_Filter_Map_spares_caller_slice_witness :
  exists m0 c0 m1 c1 m2,
    New 0%Z testData testSlice = (m0, c0) ∧
    Filter 0%Z (λ k, 2 * k) Z.even m0 c0 = Some (m1, c1) ∧
    Map (Z.mul 2) m1 c1 = Some (m2, c1) ∧
    Collect m2 c1
      = List.map (Z.mul 2) (List.filter Z.even (elems testData testSlice)) ∧
    elems m2 testSlice = elems testData testSlice.
Proof.
  apply (New_Filter_Map_spares_caller_slice 0%Z (λ k, 2 * k) Z.even (Z.mul 2)
           testData testSlice).
  split; simpl; lia.
Defined.

Lemma Range_clamps_but_panics_on_negative_end_witness :
  (exists c', Range (-2) 3 {| data := testSlice |} = Some c' ∧
     valid testData (data c') ∧
     Collect testData c' = [1; 2; 3]%Z) ∧
  Range 0 (-1) {| data := testSlice |} = None.
Proof.
  destruct (Range_clamps_but_panics_on_negative_end (-2) 3 testData
              {| data := testSlice |}) as [Hin _].
  { split; simpl; lia. }
  { simpl; lia. }
  destruct (Range_clamps_but_panics_on_negative_end 0 (-1) testData
              {| data := testSlice |}) as [_ Hout].
  { split; simpl; lia. }
  { simpl; lia. }
  split; [apply Hin; lia|apply Hout; lia].
Defined.

Lemma Every_true_iff_nonempty_and_all_witness :
  exists b,
    Every Z.even testData {| data := testSlice |} = Some b ∧
    (b = true <->
     Collect testData {| data := testSlice |} ≠ [] ∧
     forall x, x ∈ Collect testData {| data := testSlice |} -> Z.even x = true).
Proof.
  apply (Every_true_iff_nonempty_and_all Z.even testData {| data := testSlice |}).
  split; simpl; lia.
Defined.

Lemma Find_first_match_or_zero_witness :
  Find 0%Z (λ x, (x >? 3)%Z) testData {| data := testSlice |} = Some 4%Z.
Proof.
  apply (Find_first_match_or_zero 0%Z (λ x, (x >? 3)%Z) testData
           {| data := testSlice |}).
  split; simpl; lia.
Defined.

Lemma Reduce_is_left_fold_witness :
  Reduce 0%Z Z.add testData {| data := testSlice |} = Some 55%Z.
Proof.
  apply (Reduce_is_left_fold 0%Z Z.add testData {| data := testSlice |}).
  split; simpl; lia.
Defined.

Lemma Pop_removes_what_Tail_shows_witness :
  exists x c',
    Pop 0%Z testData {| data := testSlice |} = Some (x, c') ∧
    Tail 0%Z testData {| data := testSlice |} = Some x ∧
    Collect testData {| data := testSlice |} = Collect testData c' ++ [x] ∧
    valid testData (data c').
Proof.
  apply (Pop_removes_what_Tail_shows 0%Z testData {| data := testSlice |}).
  - split; simpl; lia.
  - simpl; lia.
Defined.

Lemma Shift_removes_what_Head_shows_witness :
  exists x c',
    Shift 0%Z testData {| data := testSlice |} = Some (x, c') ∧
    Head 0%Z testData {| data := testSlice |} = Some x ∧
    Collect testData {| data := testSlice |} = x :: Collect testData c' ∧
    valid testData (data c').
Proof.
  apply (Shift_removes_what_Head_shows 0%Z testData {| data := testSlice |}).
  - split; simpl; lia.
  - simpl; lia.
Defined.

Lemma At_ends_are_Head_and_Tail_witness :
  At 0%Z testData {| data := testSlice |} (-4)
    = Head 0%Z testData {| data := testSlice |} ∧
  At 0%Z testData {| data := testSlice |} 12
    = Tail 0%Z testData {| data := testSlice |}.
Proof.
  split.
  - apply (At_ends_are_Head_and_Tail 0%Z (-4) testData {| data := testSlice |}).
    lia.
  - apply (At_ends_are_Head_and_Tail 0%Z 12 testData {| data := testSlice |}).
    simpl; lia.
Defined.

Lemma Limit_spares_receiver_witness :
  exists m' c',
    Limit 0%Z (λ k, 2 * k) (-1) testData {| data := testSlice |} = Some (m', c') ∧
    (forall s, base s < length testData -> elems m' s = elems testData s) ∧
    Collect m' {| data := testSlice |} = Collect testData {| data := testSlice |} ∧
    ((-1 ≤ 0)%Z -> Collect m' c' = replicate (len testSlice) 0%Z).
Proof.
  apply (Limit_spares_receiver 0%Z (λ k, 2 * k) (-1) testData
           {| data := testSlice |}).
  - split; simpl; lia.
  - simpl; lia.
Defined.

Lemma Entries_pairs_index_with_element_witness :
  Entries [[7; 8]%Z] {| data := Slice 0 0 2 2 |}
  = Some [(Some 0%Z, Some 7%Z); (Some 1%Z, Some 8%Z)].
Proof.
  apply (Entries_pairs_index_with_element [[7; 8]%Z] {| data := Slice 0 0 2 2 |}).
  split; simpl; lia.
Defined.

End CompressFacts.

(* ================================================================== *)
(** * Facts about package stream *)
(* ================================================================== *)

Module StreamFacts.

Import Stream.

Section facts.

Context {T : Type}.

Abbreviation goroutine := (@goroutine T).
Abbreviation config := (@config T).
Abbreviation value := (@value T).
Abbreviation main_state := (@main_state T).
Abbreviation call := (@call T).
Abbreviation terminal := (@terminal T).
Abbreviation chain := (@chain T).
Abbreviation runtime := (@runtime T).

Implicit Types (g : goroutine) (cfg : config) (p : list goroutine)
  (cs : list bool) (ws : list Z) (up : list T).

(** ** [successors] enumerates exactly the steps *)

Lemma successors_sound cfg cfg' : cfg' ∈ successors cfg -> step cfg cfg'.
Proof.
  unfold successors. destruct cfg as [m [p cs ws] b]; simpl.
  destruct b; [by intros ?%elem_of_nil|].
  rewrite elem_of_app. intros [Hm|Hg].
  - unfold main_moves in Hm. apply elem_of_app in Hm as [Hm|Hm]; simpl in Hm.
    + destruct (call_step _) as [cfg1|] eqn:Hc; [|by apply elem_of_nil in Hm].
      apply list_elem_of_singleton in Hm as ->. by apply step_call.
    + destruct (main_recv m) as [[c km]|] eqn:Hr; [|by apply elem_of_nil in Hm].
      destruct (cs !! c) as [[]|] eqn:Hc; try by apply elem_of_nil in Hm.
      apply list_elem_of_singleton in Hm as ->. by eapply step_recv_closed_main.
  - apply list_elem_of_join in Hg as (l & Hin & Hl).
    apply elem_of_lookup_imap in Hl as (i & gi & -> & Hi).
    unfold moves in Hin; simpl in Hin.
    destruct (next gi) as [c kj|c v ki|c ki|wg ki|wg ki|] eqn:Hn.
    + destruct (cs !! c) as [[]|] eqn:Hc; try by apply elem_of_nil in Hin.
      apply list_elem_of_singleton in Hin as ->. by eapply step_recv_closed.
    + destruct (cs !! c) as [[]|] eqn:Hc; try by apply elem_of_nil in Hin.
      { apply list_elem_of_singleton in Hin as ->. by eapply step_send_panic. }
      unfold handoffs in Hin; simpl in Hin.
      apply elem_of_app in Hin as [Hin|Hin].
      * apply list_elem_of_omap in Hin as (o & Ho & Hid). simpl in Hid; subst o.
        apply elem_of_lookup_imap in Ho as (j & gj & Ho & Hj).
        destruct (next gj) as [c' kj| | | | |] eqn:Hnj; try done.
        destruct (decide (c' = c)) as [->|]; [|done].
        simplify_eq. by eapply step_sync.
      * destruct (main_recv m) as [[c' km]|] eqn:Hr; [|by apply elem_of_nil in Hin].
        destruct (decide (c' = c)) as [->|]; [|by apply elem_of_nil in Hin].
        apply list_elem_of_singleton in Hin as ->. by eapply step_sync_main.
    + destruct (cs !! c) as [[]|] eqn:Hc; try by apply elem_of_nil in Hin.
      * apply list_elem_of_singleton in Hin as ->. by eapply step_close_panic.
      * apply list_elem_of_singleton in Hin as ->. by eapply step_close.
    + destruct (ws !! wg) as [n|] eqn:Hw; [|by apply elem_of_nil in Hin].
      case_bool_decide; apply list_elem_of_singleton in Hin as ->.
      * by eapply step_done.
      * eapply step_done_panic; eauto. lia.
    + destruct (ws !! wg) as [[]|] eqn:Hw; try by apply elem_of_nil in Hin.
      apply list_elem_of_singleton in Hin as ->. by eapply step_wait.
    + by apply elem_of_nil in Hin.
Qed.

Lemma moves_successors cfg cfg' i gi :
  panicked cfg = false -> pool (rt cfg) !! i = Some gi ->
  cfg' ∈ moves cfg i gi -> cfg' ∈ successors cfg.
Proof.
  intros Hp Hi Hin. unfold successors. rewrite Hp.
  apply elem_of_app. right. apply list_elem_of_join.
  exists (moves cfg i gi). split; [done|].
  by apply elem_of_lookup_imap_2.
Qed.

Lemma successors_complete cfg cfg' : step cfg cfg' -> cfg' ∈ successors cfg.
Proof.
  intros Hstep.
  destruct Hstep as
    [cfg cfg' Hp Hc
    |m p cs ws i j gi gj c v ki kj Hi Hni Hj Hnj Hc
    |m p cs ws i gi c v ki km Hi Hni Hr Hc
    |m p cs ws j gj c kj Hj Hnj Hc
    |m p cs ws c km Hr Hc
    |m p cs ws i gi c ki Hi Hni Hc
    |m p cs ws i gi c ki Hi Hni Hc
    |m p cs ws i gi c v ki Hi Hni Hc
    |m p cs ws i gi wg ki n Hi Hni Hw Hn
    |m p cs ws i gi wg ki n Hi Hni Hw Hn
    |m p cs ws i gi wg ki Hi Hni Hw].
  - unfold successors, main_moves. rewrite Hp, Hc.
    apply elem_of_app. left. apply elem_of_app. left. by apply list_elem_of_singleton.
  - eapply moves_successors; [done|exact Hi|].
    unfold moves; simpl. rewrite Hni, Hc. unfold handoffs; simpl.
    apply elem_of_app. left. apply list_elem_of_omap.
    eexists. split; [|reflexivity].
    apply elem_of_lookup_imap. exists j, gj. split; [|done].
    rewrite Hnj. by rewrite decide_True.
  - eapply moves_successors; [done|exact Hi|].
    unfold moves; simpl. rewrite Hni, Hc. unfold handoffs; simpl.
    apply elem_of_app. right. rewrite Hr, decide_True by done.
    by apply list_elem_of_singleton.
  - eapply moves_successors; [done|exact Hj|].
    unfold moves; simpl. rewrite Hnj, Hc. by apply list_elem_of_singleton.
  - unfold successors, main_moves; simpl.
    apply elem_of_app. left. apply elem_of_app. right.
    rewrite Hr, Hc. by apply list_elem_of_singleton.
  - eapply moves_successors; [done|exact Hi|].
    unfold moves; simpl. rewrite Hni, Hc. by apply list_elem_of_singleton.
  - eapply moves_successors; [done|exact Hi|].
    unfold moves; simpl. rewrite Hni, Hc. by apply list_elem_of_singleton.
  - eapply moves_successors; [done|exact Hi|].
    unfold moves; simpl. rewrite Hni, Hc. by apply list_elem_of_singleton.
  - eapply moves_successors; [done|exact Hi|].
    unfold moves; simpl. rewrite Hni, Hw, bool_decide_true by done.
    by apply list_elem_of_singleton.
  - eapply moves_successors; [done|exact Hi|].
    unfold moves; simpl. rewrite Hni, Hw, bool_decide_false by lia.
    by apply list_elem_of_singleton.
  - eapply moves_successors; [done|exact Hi|].
    unfold moves; simpl. rewrite Hni, Hw. by apply list_elem_of_singleton.
Qed.

(** ** Runs under an arbitrary scheduler

    An invariant that every step preserves while a measure goes down, and
    under which a program that has not returned can always take a step,
    makes the run return, whatever the scheduler answers. *)
Section total.

Variable Inv : config -> Prop.
Variable measure : config -> nat.
Variable Post : value -> Prop.

Hypothesis Inv_step : forall cfg cfg',
  Inv cfg -> returned cfg = None -> step cfg cfg' ->
  Inv cfg' ∧ measure cfg' < measure cfg.
Hypothesis Inv_progress : forall cfg,
  Inv cfg -> returned cfg = None -> exists cfg', step cfg cfg'.
Hypothesis Inv_returned : forall cfg v,
  Inv cfg -> returned cfg = Some v -> Post v.

Lemma exec_total : forall fuel sched cfg,
  Inv cfg -> measure cfg ≤ fuel ->
  exists v, exec sched fuel cfg = Some v ∧ Post v.
Proof.
  induction fuel as [|fuel IH]; intros sched cfg HI Hm.
  - simpl. destruct (returned cfg) as [v|] eqn:Hr; [eauto|].
    destruct (Inv_progress cfg HI Hr) as [cfg' Hs].
    destruct (Inv_step cfg cfg' HI Hr Hs). lia.
  - simpl. destruct (returned cfg) as [v|] eqn:Hr; [eauto|].
    destruct (Inv_progress cfg HI Hr) as [cfg1 Hs1].
    apply successors_complete in Hs1.
    assert (Hlen : 0 < length (successors cfg)).
    { destruct (successors cfg); [by apply elem_of_nil in Hs1|simpl; lia]. }
    destruct (lookup_lt_is_Some_2 (successors cfg)
                (sched 0 `mod` length (successors cfg))) as [cfg' Hl].
    { apply Nat.mod_upper_bound. lia. }
    rewrite Hl.
    assert (Hs : step cfg cfg').
    { apply successors_sound. by eapply list_elem_of_lookup_2. }
    destruct (Inv_step cfg cfg' HI Hr Hs) as [HI' Hm'].
    apply IH; [done|lia].
Qed.

End total.

(** ** Sequential chains

    In a chain without [Parallel] the goroutine spawned [i]-th writes to
    channel [i] and, unless it is the source, reads from channel [i-1]. *)
Definition chan_ok (i : nat) g : Prop :=
  match g with
  | GSource ch _ => ch = i
  | GFilter _ s ch _ | GMap _ s ch _ | GFlatMap _ s ch _ | GLimit _ s ch _ _ =>
      ch = i ∧ S (data s) = i
  | GClose ch => ch = i
  | GExit => True
  | _ => False
  end.

Definition is_exit g : bool :=
  match g with GExit => true | _ => false end.

(** What a goroutine still sends, given what is still to arrive. *)
Definition flow g up : list T :=
  match g with
  | GSource _ data => data
  | GFilter predicate _ _ sending =>
      option_list sending ++ List.filter predicate up
  | GMap predicate _ _ sending => option_list sending ++ List.map predicate up
  | GFlatMap transform _ _ sending => sending ++ List.flat_map transform up
  | GLimit n _ _ count None => limit (n - count) up
  | GLimit n _ _ count (Some item) => item :: limit (n - (count + 1)) up
  | _ => []
  end.

(** Steps a goroutine takes besides its sends and receives of elements. *)
Definition phase g : nat :=
  match g with
  | GExit => 0
  | GClose _ => 1
  | _ => 2
  end.

(** What leaves the last goroutine of a pool fed with [up]. *)
Fixpoint rem p up : list T :=
  match p with
  | [] => up
  | g :: p' => rem p' (flow g up)
  end.

(** A bound on the steps the goroutines of a pool take. *)
Fixpoint cost p up : nat :=
  match p with
  | [] => 0
  | g :: p' => length (flow g up) + phase g + cost p' (flow g up)
  end.

Definition final_value (t : terminal) (l : list T) : value :=
  match t with
  | TReduce inital reduce =>
      VElem (fold_left (λ _ item, reduce inital item) l inital)
  | TCollect => VSlice l
  end.

(** The value the caller will return, given what is still to arrive. *)
Definition outcome (m : main_state) up : value :=
  match m with
  | MStart c => final_value (final c) (denote (calls c) (source c))
  | MChain _ cs t => final_value t (denote cs up)
  | MReduce inital reduce _ result =>
      VElem (fold_left (λ _ item, reduce inital item) up result)
  | MCollect _ result => VSlice (result ++ up)
  | MReturn v => v
  end.

Fixpoint calls_cost (cs : list call) up : nat :=
  match cs with
  | [] => 2
  | c :: cs' => 3 + length (denote1 c up) + calls_cost cs' (denote1 c up)
  end.

Definition main_cost (m : main_state) up : nat :=
  match m with
  | MStart c => 3 + length (source c) + calls_cost (calls c) (source c)
  | MChain _ cs _ => calls_cost cs up
  | MReduce _ _ _ _ | MCollect _ _ => 1
  | MReturn _ => 0
  end.

Definition main_ok (m : main_state) (n : nat) : Prop :=
  match m with
  | MStart c => n = 0 ∧ forallb sequential (calls c) = true
  | MChain s cs _ => S (data s) = n ∧ forallb sequential cs = true
  | MReduce _ _ s _ | MCollect s _ => S (data s) = n
  | MReturn _ => True
  end.

Record chain_inv cfg : Prop := {
  ci_running : panicked cfg = false;
  ci_chan : forall i g, pool (rt cfg) !! i = Some g -> chan_ok i g;
  ci_closed : chans (rt cfg) = is_exit <$> pool (rt cfg);
  ci_main : main_ok (main cfg) (length (pool (rt cfg)))
}.

Definition chain_outcome cfg : value :=
  outcome (main cfg) (rem (pool (rt cfg)) []).

Definition chain_measure cfg : nat :=
  main_cost (main cfg) (rem (pool (rt cfg)) []) + cost (pool (rt cfg)) [].

(** *** One goroutine, one action *)

Lemma is_exit_true g : is_exit g = true -> g = GExit.
Proof. by destruct g. Qed.

Lemma next_send i g c v k :
  chan_ok i g -> next g = ASend c v k ->
  c = i ∧ chan_ok i k ∧ is_exit g = false ∧ is_exit k = false ∧
  phase k = phase g ∧ forall up, flow g up = v :: flow k up.
Proof.
  intros Hok Hn.
  destruct g as [ch [|x d]|f s ch [x|]|f s ch [x|]|f s ch [|x l]
                |n s ch count [x|]|s ch wg [x|]|wg|wg ch|ch|];
    simpl in *; simplify_eq; try done; destruct_and?; by split_and!.
Qed.

Lemma limit_cons (n : Z) v up :
  ¬ (0 >= n)%Z -> limit n (v :: up) = v :: limit (n - 1) up.
Proof.
  intros Hn. unfold limit.
  replace (Z.to_nat n) with (S (Z.to_nat (n - 1))) by lia. done.
Qed.

Lemma limit_nonpos (n : Z) up : (0 >= n)%Z -> limit n up = [].
Proof.
  intros Hn. unfold limit. by replace (Z.to_nat n) with 0 by lia.
Qed.

Lemma next_recv i g c k :
  chan_ok i g -> next g = ARecv c k ->
  S c = i ∧ (forall r, chan_ok i (k r)) ∧
  is_exit g = false ∧ (forall r, is_exit (k r) = false) ∧
  (forall v, phase (k (Some v)) ≤ phase g) ∧ phase (k None) < phase g ∧
  (forall v up, flow g (v :: up) = flow (k (Some v)) up) ∧
  flow g [] = [] ∧ flow (k None) [] = [].
Proof.
  intros Hok Hn.
  destruct g as [ch [|x d]|f s ch [x|]|f s ch [x|]|f s ch [|x l]
                |n s ch count [x|]|s ch wg [x|]|wg|wg ch|ch|];
    simpl in *; simplify_eq; try done; destruct Hok as [-> <-];
    (split_and!;
     [done
     |intros [v|]; simpl; repeat case_match; done
     |done
     |intros [v|]; simpl; repeat case_match; done
     |intros v; simpl; repeat case_match; simpl; lia
     |simpl; lia
     |
     |simpl; unfold limit; by rewrite ?take_nil
     |done]);
    intros v up; simpl; try (repeat case_match; done).
  case_bool_decide as Hc; simpl.
  - apply limit_nonpos. lia.
  - rewrite limit_cons by lia. do 2 f_equal. lia.
Qed.

Lemma next_close i g c k :
  chan_ok i g -> next g = AClose c k ->
  c = i ∧ k = GExit ∧ is_exit g = false ∧ 0 < phase g ∧
  forall up, flow g up = [].
Proof.
  intros Hok Hn.
  destruct g as [ch [|x d]|f s ch [x|]|f s ch [x|]|f s ch [|x l]
                |n s ch count [x|]|s ch wg [x|]|wg|wg ch|ch|];
    simpl in *; simplify_eq; try done; split_and!; try done; lia.
Qed.

Lemma next_done i g wg k : chan_ok i g -> next g = ADone wg k -> False.
Proof.
  intros Hok Hn.
  destruct g as [ch [|x d]|f s ch [x|]|f s ch [x|]|f s ch [|x l]
                |n s ch count [x|]|s ch wg' [x|]|wg'|wg' ch|ch|];
    simpl in *; simplify_eq; done.
Qed.

Lemma next_wait i g wg k : chan_ok i g -> next g = AWait wg k -> False.
Proof.
  intros Hok Hn.
  destruct g as [ch [|x d]|f s ch [x|]|f s ch [x|]|f s ch [|x l]
                |n s ch count [x|]|s ch wg' [x|]|wg'|wg' ch|ch|];
    simpl in *; simplify_eq; done.
Qed.

Lemma next_halt g : next g = AHalt -> g = GExit.
Proof.
  destruct g as [ch [|x d]|f s ch [x|]|f s ch [x|]|f s ch [|x l]
                |n s ch count [x|]|s ch wg' [x|]|wg'|wg' ch|ch|];
    simpl; intros; simplify_eq; done.
Qed.

(** *** Pools *)

Lemma rem_app p1 p2 up : rem (p1 ++ p2) up = rem p2 (rem p1 up).
Proof. revert up. induction p1 as [|g p1 IH]; intros up; simpl; [done|apply IH]. Qed.

Lemma cost_app p1 p2 up : cost (p1 ++ p2) up = cost p1 up + cost p2 (rem p1 up).
Proof.
  revert up. induction p1 as [|g p1 IH]; intros up; simpl; [done|].
  rewrite IH. lia.
Qed.

Lemma pool_replace pre g g' post up :
  flow g' (rem pre up) = flow g (rem pre up) -> phase g' < phase g ->
  rem (pre ++ g' :: post) up = rem (pre ++ g :: post) up ∧
  cost (pre ++ g' :: post) up < cost (pre ++ g :: post) up.
Proof.
  intros Hf Hp. rewrite !rem_app, !cost_app. simpl. rewrite Hf.
  split; [done|lia].
Qed.

Lemma pool_handoff pre gi gj post ki kj v up :
  (forall u, flow gi u = v :: flow ki u) -> phase ki = phase gi ->
  (forall u, flow gj (v :: u) = flow kj u) -> phase kj ≤ phase gj ->
  rem (pre ++ ki :: kj :: post) up = rem (pre ++ gi :: gj :: post) up ∧
  cost (pre ++ ki :: kj :: post) up < cost (pre ++ gi :: gj :: post) up.
Proof.
  intros Hs Hps Hr Hpr. rewrite !rem_app, !cost_app. simpl.
  rewrite Hs, Hr. simpl. split; [done|lia].
Qed.

Lemma pool_deliver pre gi ki v up :
  (forall u, flow gi u = v :: flow ki u) -> phase ki = phase gi ->
  rem (pre ++ [gi]) up = v :: rem (pre ++ [ki]) up ∧
  cost (pre ++ [ki]) up < cost (pre ++ [gi]) up.
Proof.
  intros Hs Hps. rewrite !rem_app, !cost_app. simpl.
  rewrite Hs. simpl. split; [done|lia].
Qed.

Lemma split_at {A} (l : list A) i x :
  l !! i = Some x -> exists pre post, l = pre ++ x :: post ∧ length pre = i.
Proof.
  intros H. apply list_elem_of_split_length in H as (pre & post & -> & ->).
  by exists pre, post.
Qed.

Lemma split_last {A} (l : list A) i x :
  l !! i = Some x -> S i = length l -> exists pre, l = pre ++ [x] ∧ length pre = i.
Proof.
  intros H Hl. apply split_at in H as (pre & post & -> & Hi).
  exists pre. rewrite length_app in Hl. simpl in Hl.
  destruct post; [done|simpl in Hl; lia].
Qed.

Lemma split_two {A} (l : list A) i x y :
  l !! i = Some x -> l !! S i = Some y ->
  exists pre post, l = pre ++ x :: y :: post ∧ length pre = i.
Proof.
  intros Hx Hy. apply split_at in Hx as (pre & post & -> & Hi).
  rewrite lookup_app_r in Hy by lia.
  replace (S i - length pre) with 1 in Hy by lia.
  destruct post as [|y' post]; simplify_eq/=. by exists pre, post.
Qed.

Lemma insert_middle {A} (pre post : list A) x y :
  <[length pre := y]> (pre ++ x :: post) = pre ++ y :: post.
Proof.
  rewrite insert_app_r_alt by lia. by rewrite Nat.sub_diag.
Qed.

Lemma insert_two {A} (pre post : list A) x y x' y' :
  <[S (length pre) := y']> (<[length pre := x']> (pre ++ x :: y :: post))
  = pre ++ x' :: y' :: post.
Proof.
  rewrite insert_middle. rewrite insert_app_r_alt by lia.
  by replace (S (length pre) - length pre) with 1 by lia.
Qed.

Lemma closed_exit p cs c :
  cs = is_exit <$> p -> cs !! c = Some true -> p !! c = Some GExit.
Proof.
  intros -> H. rewrite list_lookup_fmap in H.
  destruct (p !! c) as [g|]; simplify_eq/=. f_equal. by apply is_exit_true.
Qed.

Lemma chan_ok_insert p i k :
  (forall j g, p !! j = Some g -> chan_ok j g) -> chan_ok i k ->
  forall j g, <[i := k]> p !! j = Some g -> chan_ok j g.
Proof.
  intros Hp Hk j g Hj.
  apply list_lookup_insert_Some in Hj as [(-> & -> & _)|[_ Hj]]; eauto.
Qed.

Lemma exit_insert p i gi k :
  p !! i = Some gi -> is_exit gi = is_exit k ->
  is_exit <$> <[i := k]> p = is_exit <$> p.
Proof.
  intros Hi He. rewrite list_fmap_insert, <- He.
  apply list_insert_id. by rewrite list_lookup_fmap, Hi.
Qed.

Lemma chan_ok_snoc p g :
  (forall j g, p !! j = Some g -> chan_ok j g) -> chan_ok (length p) g ->
  forall j g', (p ++ [g]) !! j = Some g' -> chan_ok j g'.
Proof.
  intros Hp Hg j g' Hj.
  apply lookup_app_Some in Hj as [Hj|[Hle Hj]]; [eauto|].
  destruct (j - length p) as [|n] eqn:E; simplify_eq/=.
  by replace j with (length p) by lia.
Qed.

(** *** Every step keeps the chain invariant, the value to be returned,
    and lowers the measure. *)

Lemma chain_call cfg cfg' :
  chain_inv cfg -> call_step cfg = Some cfg' ->
  chain_inv cfg' ∧ chain_outcome cfg' = chain_outcome cfg ∧
  chain_measure cfg' < chain_measure cfg.
Proof.
  intros [Hrun Hchan Hclosed Hmain] Hc.
  destruct cfg as [m [p cs ws] b]; simpl in *; subst b.
  unfold call_step in Hc; simpl in Hc.
  unfold chain_outcome, chain_measure.
  destruct m as [c|s [|c cs'] t| | |]; simpl in *; try done.
  - destruct Hmain as [Hn Hseq].
    apply length_zero_iff_nil in Hn. subst p. simplify_eq/=.
    split_and!; [|done|lia].
    constructor; simpl; try done.
    intros [|i] g ?; by simplify_eq/=.
  - destruct Hmain as [Hs _].
    destruct t; simplify_eq/=; (split_and!; [by constructor|done|lia]).
  - destruct Hmain as [Hs Hseq].
    apply andb_prop in Hseq as [Hc1 Hseq].
    assert (Hlen : length cs = length p) by (subst cs; apply length_fmap).
    destruct c; simplify_eq/=; rewrite ?Hlen;
      rewrite ?rem_app, ?cost_app; simpl; rewrite ?Z.sub_0_r;
      (split_and!; [|done|lia]);
      (constructor; simpl;
       [done
       |apply chan_ok_snoc; [done|simpl; by rewrite ?Hlen]
       |by rewrite fmap_app
       |rewrite length_app; simpl; split; [lia|done]]).
Qed.

Lemma chain_step cfg cfg' :
  chain_inv cfg -> step cfg cfg' ->
  chain_inv cfg' ∧ chain_outcome cfg' = chain_outcome cfg ∧
  chain_measure cfg' < chain_measure cfg.
Proof.
  intros Hinv Hstep.
  destruct Hstep as
    [cfg cfg' Hp Hc
    |m p cs ws i j gi gj c v ki kj Hi Hni Hj Hnj Hc
    |m p cs ws i gi c v ki km Hi Hni Hr Hc
    |m p cs ws j gj c kj Hj Hnj Hc
    |m p cs ws c km Hr Hc
    |m p cs ws i gi c ki Hi Hni Hc
    |m p cs ws i gi c ki Hi Hni Hc
    |m p cs ws i gi c v ki Hi Hni Hc
    |m p cs ws i gi wg ki n Hi Hni Hw Hn
    |m p cs ws i gi wg ki n Hi Hni Hw Hn
    |m p cs ws i gi wg ki Hi Hni Hw];
    [by apply chain_call|..];
    destruct Hinv as [_ Hchan Hclosed Hmain]; simpl in *;
    unfold chain_outcome, chain_measure; simpl.
  - (* a goroutine hands an element to the next one *)
    destruct (next_send i gi c v ki (Hchan _ _ Hi) Hni)
      as (-> & Hoki & Hei & Heki & Hpi & Hfi).
    destruct (next_recv j gj i kj (Hchan _ _ Hj) Hnj)
      as (<- & Hokj & Hej & Hekj & Hpj & _ & Hfj & _).
    destruct (split_two p i gi gj Hi Hj) as (pre & post & -> & <-).
    rewrite insert_two.
    destruct (pool_handoff pre gi gj post ki (kj (Some v)) v [] Hfi Hpi
                (Hfj v) (Hpj v)) as [Hrem Hcost].
    rewrite Hrem. split_and!; [|done|lia].
    rewrite <- (insert_two pre post gi gj).
    constructor; simpl; [done| | |by rewrite !length_insert].
    + apply chan_ok_insert; [|done]. by apply chan_ok_insert.
    + rewrite Hclosed, insert_two, !fmap_app, !fmap_cons.
      by rewrite Hei, Heki, Hej, Hekj.
  - (* the last goroutine hands an element to the caller *)
    destruct (next_send i gi c v ki (Hchan _ _ Hi) Hni)
      as (-> & Hoki & Hei & Heki & Hpi & Hfi).
    assert (Hlast : S i = length p).
    { destruct m; simplify_eq/=; done. }
    destruct (split_last p i gi Hi Hlast) as (pre & -> & <-).
    rewrite insert_middle.
    destruct (pool_deliver pre gi ki v [] Hfi Hpi) as [Hrem Hcost].
    rewrite Hrem.
    split_and!.
    + rewrite <- (insert_middle pre [] gi).
      constructor; simpl; [done| | |].
      * by apply chan_ok_insert.
      * rewrite Hclosed. symmetry. apply (exit_insert _ _ gi); [done|congruence].
      * rewrite length_insert. destruct m; simplify_eq/=; done.
    + destruct m; simplify_eq/=; [done|]. by rewrite <- app_assoc.
    + destruct m; simplify_eq/=; lia.
  - (* a goroutine finds its input closed *)
    destruct (next_recv j gj c kj (Hchan _ _ Hj) Hnj)
      as (<- & Hokj & Hej & Hekj & _ & Hpj & _ & Hfj & Hfk).
    pose proof (closed_exit p cs c Hclosed Hc) as Hx.
    destruct (split_two p c GExit gj Hx Hj) as (pre & post & -> & <-).
    replace (pre ++ GExit :: gj :: post) with ((pre ++ [GExit]) ++ gj :: post)
      in * by (by rewrite <- app_assoc).
    replace (S (length pre)) with (length (pre ++ [GExit])) in *
      by (rewrite length_app; simpl; lia).
    rewrite insert_middle.
    destruct (pool_replace (pre ++ [GExit]) gj (kj None) post []) as [Hrem Hcost].
    { rewrite rem_app. simpl. congruence. }
    { done. }
    rewrite Hrem. split_and!; [|done|lia].
    rewrite <- (insert_middle _ post gj).
    constructor; simpl; [done| | |by rewrite !length_insert].
    + by apply chan_ok_insert.
    + rewrite Hclosed. symmetry. apply (exit_insert _ _ gj); [done|congruence].
  - (* the caller finds its input closed *)
    pose proof (closed_exit p cs c Hclosed Hc) as Hx.
    assert (Hlast : S c = length p).
    { destruct m; simplify_eq/=; done. }
    destruct (split_last p c GExit Hx Hlast) as (pre & -> & <-).
    rewrite rem_app. simpl.
    split_and!.
    + constructor; simpl; try done. destruct m; simplify_eq/=; done.
    + destruct m; simplify_eq/=; [done|]. by rewrite app_nil_r.
    + destruct m; simplify_eq/=; lia.
  - (* a goroutine closes its channel *)
    destruct (next_close i gi c ki (Hchan _ _ Hi) Hni)
      as (-> & -> & Hei & Hpi & Hfi).
    destruct (split_at p i gi Hi) as (pre & post & -> & <-).
    rewrite insert_middle.
    destruct (pool_replace pre gi GExit post []) as [Hrem Hcost].
    { by rewrite Hfi. }
    { done. }
    rewrite Hrem. split_and!; [|done|lia].
    rewrite <- (insert_middle _ post gi).
    constructor; simpl; [done| | |by rewrite !length_insert].
    + by apply chan_ok_insert.
    + rewrite Hclosed. by rewrite list_fmap_insert.
  - (* closing a closed channel does not happen *)
    destruct (next_close i gi c ki (Hchan _ _ Hi) Hni)
      as (-> & -> & Hei & Hpi & Hfi).
    pose proof (closed_exit p cs i Hclosed Hc) as Hx. by simplify_eq.
  - (* sending on a closed channel does not happen *)
    destruct (next_send i gi c v ki (Hchan _ _ Hi) Hni)
      as (-> & Hoki & Hei & Heki & Hpi & Hfi).
    pose proof (closed_exit p cs i Hclosed Hc) as Hx. by simplify_eq.
  - by destruct (next_done i gi wg ki (Hchan _ _ Hi) Hni).
  - by destruct (next_done i gi wg ki (Hchan _ _ Hi) Hni).
  - by destruct (next_wait i gi wg ki (Hchan _ _ Hi) Hni).
Qed.

(** *** A chain whose caller has not returned can take a step *)

Lemma chain_pull m p cs ws :
  chain_inv (Config m (Runtime p cs ws) false) ->
  forall c, c < length p ->
    (exists gj kj, p !! S c = Some gj ∧ next gj = ARecv c kj) ∨
    (exists km, main_recv m = Some (c, km)) ->
    exists cfg', step (Config m (Runtime p cs ws) false) cfg'.
Proof.
  intros [_ Hchan Hclosed Hmain]; simpl in *.
  induction c as [|c IH]; intros Hlt Hrecv;
    destruct (lookup_lt_is_Some_2 p _ Hlt) as [g Hg];
    pose proof (Hchan _ _ Hg) as Hok;
    (assert (Hopen : cs !! _ = Some (is_exit g))
       by (by rewrite Hclosed, list_lookup_fmap, Hg));
    destruct (next g) as [c' k|c' v k|c' k|wg k|wg k|] eqn:Hn.
  all: try (by destruct (next_done _ _ _ _ Hok Hn)).
  all: try (by destruct (next_wait _ _ _ _ Hok Hn)).
  all: try (destruct (next_recv _ _ _ _ Hok Hn) as (Hc' & _); by simplify_eq).
  all: try (destruct (next_recv _ _ _ _ Hok Hn) as (Hc' & _); simplify_eq;
            apply IH; [lia|left; eauto]).
  all: try (destruct (next_send _ _ _ _ _ Hok Hn) as (-> & _ & He & _);
            rewrite He in Hopen;
            destruct Hrecv as [(gj & kj & Hj & Hnj)|[km Hr]];
            [eexists; eapply step_sync with (gi := g) (gj := gj); eassumption
            |eexists; eapply step_sync_main with (gi := g); eassumption]).
  all: try (destruct (next_close _ _ _ _ Hok Hn) as (-> & _ & He & _);
            rewrite He in Hopen; eexists;
            eapply step_close with (gi := g); eassumption).
  all: apply next_halt in Hn; subst g; simpl in Hopen;
    destruct Hrecv as [(gj & kj & Hj & Hnj)|[km Hr]];
    [eexists; eapply step_recv_closed with (gj := gj); eassumption
    |eexists; eapply step_recv_closed_main; eassumption].
Qed.

Lemma chain_progress cfg :
  chain_inv cfg -> returned cfg = None -> exists cfg', step cfg cfg'.
Proof.
  intros Hinv Hret. pose proof Hinv as [Hrun Hchan Hclosed Hmain].
  destruct cfg as [m [p cs ws] b]; simpl in *; subst b.
  destruct m as [c|s cl t|inital reduce s result|s result|v]; simpl in *.
  - eexists. apply step_call; [done|]. unfold call_step; simpl. done.
  - assert (exists cfg', call_step (Config (MChain s cl t) (Runtime p cs ws) false)
                          = Some cfg') as [cfg' Hc].
    { unfold call_step; simpl.
      destruct cl as [|[] cl]; [destruct t| | | | |]; simpl; eauto.
      destruct (Parallel _ _ _) as [[]|]; eauto. }
    exists cfg'. by apply step_call.
  - apply (chain_pull _ _ _ _ Hinv (data s)); [lia|right; simpl; eauto].
  - apply (chain_pull _ _ _ _ Hinv (data s)); [lia|right; simpl; eauto].
  - done.
Qed.

(** *** What a sequential chain returns *)

Lemma chain_run (c : chain) (sched : nat -> nat) (fuel : nat) :
  forallb sequential (calls c) = true ->
  chain_measure (start c) ≤ fuel ->
  exec sched fuel (start c)
  = Some (final_value (final c) (denote (calls c) (source c))).
Proof.
  intros Hseq Hfuel.
  destruct (exec_total
    (λ cfg, chain_inv cfg ∧ chain_outcome cfg = chain_outcome (start c))
    chain_measure
    (λ v, v = chain_outcome (start c))) with (fuel := fuel) (sched := sched)
    (cfg := start c) as (v & Hv & ->).
  - intros cfg cfg' [Hinv Hout] _ Hstep.
    destruct (chain_step cfg cfg' Hinv Hstep) as (? & ? & ?).
    split_and!; [done|congruence|done].
  - intros cfg [Hinv _]. by apply chain_progress.
  - intros cfg v [Hinv Hout] Hret. rewrite <- Hout.
    unfold returned in Hret. destruct (panicked cfg); [done|].
    unfold chain_outcome. destruct (main cfg); by simplify_eq/=.
  - split; [|done]. by constructor.
  - done.
  - done.
Qed.

(** ** The claims about sequential chains *)

Lemma fold_left_last {A B} (f : B -> A) (l : list B) (a : A) :
  fold_left (λ _ item, f item) l a
  = match last l with Some e => f e | None => a end.
Proof.
  revert a. induction l as [|x l IH]; intros a; simpl; [done|].
  rewrite IH. destruct l as [|y l]; [done|].
  change (last (x :: y :: l)) with (last (y :: l)).
  destruct (last (y :: l)) eqn:E; [done|]. by apply last_None in E.
Qed.

(** C2: [Collect] after [Filter(P)] over [NewStream(S)] returns, under every
    scheduler, the elements of [S] that satisfy [P], in the order of [S]. *)
Theorem Filter_Collect_subsequence (S : list T) (P : T -> bool)
    (sched : nat -> nat) (fuel : nat) :
  chain_measure (start (Chain S [CFilter P] TCollect)) ≤ fuel ->
  exec sched fuel (start (Chain S [CFilter P] TCollect))
  = Some (VSlice (List.filter P S)).
Proof. intros Hfuel. by rewrite chain_run. Qed.

(** C3: [Collect] after [Limit(n)] over [NewStream(S)] returns the first
    [min(n, len(S))] elements of [S] in order when [n >= 0], and the empty
    sequence when [n <= 0]. *)
Theorem Limit_Collect_prefix (S : list T) (n : Z)
    (sched : nat -> nat) (fuel : nat) :
  chain_measure (start (Chain S [CLimit n] TCollect)) ≤ fuel ->
  exists r,
    exec sched fuel (start (Chain S [CLimit n] TCollect)) = Some (VSlice r) ∧
    ((0 ≤ n)%Z -> r = take (Z.to_nat n `min` length S) S) ∧
    ((n ≤ 0)%Z -> r = []).
Proof.
  intros Hfuel. exists (limit n S). rewrite chain_run by done.
  split_and!; [done| |].
  - intros _. unfold limit.
    by rewrite <- take_take, firstn_all.
  - intros Hn. apply limit_nonpos. lia.
Qed.

(** C4: [Collect] after [FlatMap(f)] over [NewStream([x1..xk])] returns
    [f x1 ++ f x2 ++ ... ++ f xk]. *)
Theorem FlatMap_Collect_concat (S : list T) (f : T -> list T)
    (sched : nat -> nat) (fuel : nat) :
  chain_measure (start (Chain S [CFlatMap f] TCollect)) ≤ fuel ->
  exec sched fuel (start (Chain S [CFlatMap f] TCollect))
  = Some (VSlice (concat (List.map f S))).
Proof.
  intros Hfuel. rewrite chain_run by done. simpl.
  by rewrite flat_map_concat_map.
Qed.

(** C5: [Collect] after [Map(F)] over [NewStream(S)] has the length of [S],
    and its element at every index [i] is [F (S[i])]. *)
Theorem Map_Collect_pointwise (S : list T) (F : T -> T)
    (sched : nat -> nat) (fuel : nat) :
  chain_measure (start (Chain S [CMap F] TCollect)) ≤ fuel ->
  exists r,
    exec sched fuel (start (Chain S [CMap F] TCollect)) = Some (VSlice r) ∧
    length r = length S ∧
    forall i, r !! i = F <$> S !! i.
Proof.
  intros Hfuel. exists (F <$> S). rewrite chain_run by done.
  split_and!; [done|apply length_fmap|intros i; apply list_lookup_fmap].
Qed.

Lemma filter_all (P : T -> bool) (l : list T) :
  (forall x, x ∈ l -> P x = true) -> List.filter P l = l.
Proof.
  induction l as [|x l IH]; intros H; simpl; [done|].
  rewrite (H x) by (left). f_equal. apply IH. intros y Hy. apply H. by right.
Qed.

Lemma filter_twice (P : T -> bool) (l : list T) :
  List.filter P (List.filter P l) = List.filter P l.
Proof.
  apply filter_all. intros x Hx.
  apply list_elem_of_In, filter_In in Hx. tauto.
Qed.

(** C7: filtering is idempotent on content.  Under any two schedulers,
    [Filter(P)] applied twice collects what [Filter(P)] applied once
    collects; and [Filter(P)] after a chain whose elements all satisfy [P]
    leaves the collected content as it is. *)
Theorem Filter_idempotent (S : list T) (P : T -> bool) (cs : list call)
    (sched sched' : nat -> nat) (fuel : nat) :
  forallb sequential cs = true ->
  chain_measure (start (Chain S [CFilter P; CFilter P] TCollect)) ≤ fuel ->
  chain_measure (start (Chain S (cs ++ [CFilter P]) TCollect)) ≤ fuel ->
  (exec sched fuel (start (Chain S [CFilter P; CFilter P] TCollect))
   = exec sched' fuel (start (Chain S [CFilter P] TCollect)) ∧
   exec sched' fuel (start (Chain S [CFilter P] TCollect))
   = Some (VSlice (List.filter P S))) ∧
  ((forall x, x ∈ denote cs S -> P x = true) ->
   exec sched fuel (start (Chain S (cs ++ [CFilter P]) TCollect))
   = exec sched' fuel (start (Chain S cs TCollect)) ∧
   exec sched' fuel (start (Chain S cs TCollect))
   = Some (VSlice (denote cs S))).
Proof.
  intros Hseq Hfuel2 Hfuel1.
  assert (Hcost : forall l up,
    calls_cost l up ≤ calls_cost (l ++ [CFilter P]) up).
  { induction l as [|c l IH]; intros up; simpl; [lia|].
    specialize (IH (denote1 c up)). lia. }
  split.
  - assert (H1 : exec sched' fuel (start (Chain S [CFilter P] TCollect))
                 = Some (VSlice (List.filter P S))).
    { apply chain_run; [done|].
      unfold chain_measure in *; simpl in *. lia. }
    rewrite H1. split; [|done].
    rewrite chain_run by done. simpl. by rewrite filter_twice.
  - intros Hall.
    assert (H1 : exec sched' fuel (start (Chain S cs TCollect))
                 = Some (VSlice (denote cs S))).
    { apply chain_run; [done|].
      unfold chain_measure in *; simpl in *.
      specialize (Hcost cs S). lia. }
    rewrite H1. split; [|done].
    rewrite chain_run; simpl; [|by rewrite forallb_app, Hseq|done].
    unfold denote. rewrite fold_left_app. simpl.
    by rewrite filter_all.
Qed.

(** ** Fan-out: [NewStream(S).Parallel(K).Collect()]

    The pool is the source, then the [K] workers, then the goroutine that
    waits for them and closes the shared output.  Channel 0 feeds the
    workers, channel 1 is their shared output, wait group 0 counts them. *)
Definition src_ok g (rest : list T) : Prop :=
  match g with
  | GSource ch data => ch = 0 ∧ data = rest
  | GExit => rest = []
  | _ => False
  end.

Definition worker_ok (closed0 : bool) g : Prop :=
  match g with
  | GWorker s ch wg _ => data s = 0 ∧ ch = 1 ∧ wg = 0
  | GWorkerDone wg => wg = 0 ∧ closed0 = true
  | GExit => closed0 = true
  | _ => False
  end.

Definition closer_ok (count : nat) g : Prop :=
  match g with
  | GWait wg ch => wg = 0 ∧ ch = 1
  | GClose ch => ch = 1 ∧ count = 0
  | GExit => count = 0
  | _ => False
  end.

(** The element a worker has received and not yet forwarded. *)
Definition held g : list T :=
  match g with
  | GWorker _ _ _ (Some item) => [item]
  | _ => []
  end.

Fixpoint helds p : list T :=
  match p with
  | [] => []
  | g :: p' => held g ++ helds p'
  end.

(** Workers that have not called [wg.Done()] yet. *)
Definition live g : nat :=
  match g with GExit => 0 | _ => 1 end.

Fixpoint lives p : nat :=
  match p with
  | [] => 0
  | g :: p' => live g + lives p'
  end.

Inductive running (S : list T) (k : nat) (result : list T) : runtime -> Prop :=
| Running src rest workers closer :
    src_ok src rest ->
    length workers = k ->
    Forall (worker_ok (is_exit src)) workers ->
    closer_ok (lives workers) closer ->
    result ++ helds workers ++ rest ≡ₚ S ->
    (k = 1 -> result ++ helds workers ++ rest = S) ->
    running S k result
      (Runtime (src :: workers ++ [closer])
               [is_exit src; is_exit closer]
               [Z.of_nat (lives workers)]).

Definition par_inv (S : list T) (K : Z) cfg : Prop :=
  panicked cfg = false ∧ (1 ≤ K)%Z ∧
  match main cfg with
  | MStart c =>
      c = Chain S [CParallel K] TCollect ∧ rt cfg = Runtime [] [] []
  | MChain s [CParallel K'] TCollect =>
      K' = K ∧ data s = 0 ∧
      exists src, src_ok src S ∧ rt cfg = Runtime [src] [is_exit src] []
  | MChain s [] TCollect => data s = 1 ∧ running S (Z.to_nat K) [] (rt cfg)
  | MCollect s result => data s = 1 ∧ running S (Z.to_nat K) result (rt cfg)
  | MReturn (VSlice r) => r ≡ₚ S ∧ (K = 1%Z -> r = S)
  | _ => False
  end.

Definition gcost g : nat :=
  match g with
  | GSource _ data => 2 * length data + 1
  | GWorker _ _ _ None => 2
  | GWorker _ _ _ (Some _) => 3
  | GWorkerDone _ => 1
  | GWait _ _ => 2
  | GClose _ => 1
  | _ => 0
  end.

Fixpoint total p : nat :=
  match p with
  | [] => 0
  | g :: p' => gcost g + total p'
  end.

Definition par_main_cost (k : nat) (m : main_state) : nat :=
  match m with
  | MStart c => 2 * length (source c) + 2 * k + 8
  | MChain _ (_ :: _) _ => 2 * k + 5
  | MChain _ [] _ => 2
  | MReduce _ _ _ _ | MCollect _ _ => 1
  | MReturn _ => 0
  end.

Definition par_measure (k : nat) cfg : nat :=
  par_main_cost k (main cfg) + total (pool (rt cfg)).

Lemma helds_app p1 p2 : helds (p1 ++ p2) = helds p1 ++ helds p2.
Proof. induction p1 as [|g p1 IH]; simpl; [done|]. by rewrite IH, app_assoc. Qed.

Lemma lives_app p1 p2 : lives (p1 ++ p2) = lives p1 + lives p2.
Proof. induction p1 as [|g p1 IH]; simpl; [done|]. rewrite IH. lia. Qed.

Lemma total_app p1 p2 : total (p1 ++ p2) = total p1 + total p2.
Proof. induction p1 as [|g p1 IH]; simpl; [done|]. rewrite IH. lia. Qed.

Lemma lives_zero p g : lives p = 0 -> g ∈ p -> g = GExit.
Proof.
  induction p as [|g' p IH]; simpl; intros Hz Hin; [by apply elem_of_nil in Hin|].
  apply elem_of_cons in Hin as [->|Hin].
  - destruct g'; simpl in Hz; done || lia.
  - apply IH; [lia|done].
Qed.

Lemma lives_pos p : 0 < lives p -> exists j g, p !! j = Some g ∧ live g = 1.
Proof.
  induction p as [|g p IH]; simpl; intros Hz; [lia|].
  destruct (live g) as [|[|n]] eqn:E.
  - destruct IH as (j & g' & Hj & Hg'); [lia|]. by exists (S j), g'.
  - by exists 0, g.
  - destruct g; simpl in E; lia.
Qed.

Lemma helds_exit p : (forall g, g ∈ p -> g = GExit) -> helds p = [].
Proof.
  induction p as [|g p IH]; simpl; intros H; [done|].
  rewrite (H g) by left. simpl. apply IH. intros g' Hg'. apply H. by right.
Qed.

Lemma spawn_workers_pool k s ch wg (r : runtime) :
  spawn_workers k s ch wg r
  = Runtime (pool r ++ replicate k (GWorker s ch wg None)) (chans r) (wgs r).
Proof.
  revert r. induction k as [|k IH]; intros r; simpl.
  - rewrite app_nil_r. by destruct r.
  - rewrite IH. simpl. by rewrite <- app_assoc.
Qed.

Lemma helds_fresh k s ch wg : helds (replicate k (GWorker s ch wg None)) = [].
Proof. induction k; simpl; done. Qed.

Lemma lives_fresh k s ch wg : lives (replicate k (GWorker s ch wg None)) = k.
Proof. induction k as [|k IH]; simpl; [done|]. by rewrite IH. Qed.

Lemma total_fresh k s ch wg : total (replicate k (GWorker s ch wg None)) = 2 * k.
Proof. induction k as [|k IH]; simpl; [done|]. rewrite IH. lia. Qed.

(** Which goroutine sits at an index of the pool. *)
Lemma run_lookup (src closer : goroutine) workers i g :
  (src :: workers ++ [closer]) !! i = Some g ->
  (i = 0 ∧ g = src) ∨
  (exists j, i = S j ∧ workers !! j = Some g) ∨
  (i = S (length workers) ∧ g = closer).
Proof.
  destruct i as [|i]; simpl; [intros; simplify_eq; by left|].
  intros H. right. apply lookup_app_Some in H as [H|[Hle H]].
  - left. by exists i.
  - right. destruct (i - length workers) as [|n] eqn:E; simplify_eq/=.
    split; [f_equal; lia|done].
Qed.

Lemma run_insert_worker (src closer : goroutine) workers j g :
  j < length workers ->
  <[S j := g]> (src :: workers ++ [closer])
  = src :: <[j := g]> workers ++ [closer].
Proof. intros Hj. simpl. by rewrite insert_app_l. Qed.

Lemma run_insert_closer (src closer : goroutine) workers g :
  <[S (length workers) := g]> (src :: workers ++ [closer])
  = src :: workers ++ [g].
Proof. simpl. by rewrite insert_middle. Qed.

Lemma running_intro (S : list T) k result src rest workers closer cs ws :
  cs = [is_exit src; is_exit closer] ->
  ws = [Z.of_nat (lives workers)] ->
  src_ok src rest ->
  length workers = k ->
  Forall (worker_ok (is_exit src)) workers ->
  closer_ok (lives workers) closer ->
  result ++ helds workers ++ rest ≡ₚ S ->
  (k = 1 -> result ++ helds workers ++ rest = S) ->
  running S k result (Runtime (src :: workers ++ [closer]) cs ws).
Proof. intros -> -> Hsrc. by apply (Running S k result src rest). Qed.

Lemma worker_ok_closed b g : worker_ok b g -> worker_ok true g.
Proof. destruct g; simpl; tauto. Qed.

Lemma single_split {A} (w1 w2 : list A) (w : A) :
  length (w1 ++ w :: w2) = 1 -> w1 = [] ∧ w2 = [].
Proof.
  rewrite length_app; simpl. intros H.
  destruct w1, w2; simpl in *; done || lia.
Qed.

(** *** The caller's own statements *)

Lemma par_call (S : list T) (K : Z) cfg cfg' :
  par_inv S K cfg -> call_step cfg = Some cfg' ->
  par_inv S K cfg' ∧ par_measure (Z.to_nat K) cfg' < par_measure (Z.to_nat K) cfg.
Proof.
  intros (Hrun & HK & Hm) Hc.
  destruct cfg as [m r b]; simpl in *; subst b.
  unfold call_step in Hc; simpl in Hc. unfold par_inv, par_measure.
  destruct m as [c|s [|[]  [|]] []| | |]; simpl in *; try done.
  - destruct Hm as [-> ->]. simplify_eq/=.
    split; [|lia]. split_and!; try done. by exists (GSource 0 S).
  - destruct Hm as [Hs Hr]. simplify_eq/=. split; [|lia]. done.
  - destruct Hm as (-> & Hs & src & Hsrc & ->).
    unfold Parallel, new_wg in Hc; simpl in Hc.
    rewrite bool_decide_false in Hc by lia.
    rewrite spawn_workers_pool in Hc. simplify_eq/=.
    rewrite !total_app, total_fresh. simpl.
    split; [|lia]. split_and!; try done.
    eapply (running_intro S _ [] src S _ (GWait 0 1)); simpl; try done.
    + rewrite lives_fresh. f_equal. lia.
    + by rewrite length_replicate.
    + apply Forall_replicate. simpl. by rewrite Hs.
    + by rewrite helds_fresh.
    + by rewrite helds_fresh.
Qed.

(** *** Steps before the workers exist: only the source is there *)

Lemma par_step_early (S : list T) (K : Z) s src cfg' :
  src_ok src S ->
  step (Config (MChain s [CParallel K] TCollect)
               (Runtime [src] [is_exit src] []) false) cfg' ->
  call_step (Config (MChain s [CParallel K] TCollect)
               (Runtime [src] [is_exit src] []) false) = Some cfg' ∨
  (src = GSource 0 [] ∧ S = [] ∧
   cfg' = Config (MChain s [CParallel K] TCollect)
            (Runtime [GExit] [is_exit GExit] []) false).
Proof.
  intros Hsrc Hstep.
  inversion Hstep as
    [cfg0 cfg0' Hp Hc
    |m p cs ws i j gi gj c v ki kj Hi Hni Hj Hnj Hc
    |m p cs ws i gi c v ki km Hi Hni Hr Hc
    |m p cs ws j gj c kj Hj Hnj Hc
    |m p cs ws c km Hr Hc
    |m p cs ws i gi c ki Hi Hni Hc
    |m p cs ws i gi c ki Hi Hni Hc
    |m p cs ws i gi c v ki Hi Hni Hc
    |m p cs ws i gi wg ki n Hi Hni Hw Hn
    |m p cs ws i gi wg ki n Hi Hni Hw Hn
    |m p cs ws i gi wg ki Hi Hni Hw]; subst; try done;
    [by left|..];
    try apply list_lookup_singleton_Some in Hi as [-> <-];
    try apply list_lookup_singleton_Some in Hj as [-> <-];
    destruct src as [ch [|x d]| | | | | | | | |]; simpl in *; try done;
    destruct_and?; simplify_eq/=; try done.
  by right.
Qed.

(** *** Who can perform which action *)

Ltac role H Hws src closer :=
  apply run_lookup in H as [[-> ->]|[(?j & -> & H)|[-> ->]]];
  [destruct src as [? [|? ?]| | | | | | | | |]
  |let Hw := fresh "Hw" in
   pose proof (Forall_lookup_1 _ _ _ _ Hws H) as Hw;
   apply split_at in H as (?w1 & ?w2 & -> & <-);
   match goal with
   | H' : next ?g = _ |- _ => destruct g as [| | | | |? ? ? [|]| | | |]
   end
  |destruct closer];
  simpl in *; try done; destruct_and?; simplify_eq/=.

Lemma pool_send src closer workers rest i g c v k :
  src_ok src rest ->
  Forall (worker_ok (is_exit src)) workers ->
  closer_ok (lives workers) closer ->
  (src :: workers ++ [closer]) !! i = Some g -> next g = ASend c v k ->
  (i = 0 ∧ c = 0 ∧ exists d,
     src = GSource 0 (v :: d) ∧ rest = v :: d ∧ k = GSource 0 d) ∨
  (exists s w1 w2,
     i = S (length w1) ∧ c = 1 ∧ data s = 0 ∧
     workers = w1 ++ GWorker s 1 0 (Some v) :: w2 ∧ k = GWorker s 1 0 None).
Proof.
  intros Hsrc Hws Hcl Hi Hn. role Hi Hws src closer.
  - left. split_and!; try done. by eexists.
  - right. match goal with s : Stream |- _ => exists s end.
    do 2 eexists. split_and!; done.
Qed.

Lemma pool_recv src closer workers rest i g c k :
  src_ok src rest ->
  Forall (worker_ok (is_exit src)) workers ->
  closer_ok (lives workers) closer ->
  (src :: workers ++ [closer]) !! i = Some g -> next g = ARecv c k ->
  exists s w1 w2,
    i = S (length w1) ∧ c = 0 ∧ data s = 0 ∧
    workers = w1 ++ GWorker s 1 0 None :: w2 ∧
    k = (λ r, match r with
              | Some item => GWorker s 1 0 (Some item)
              | None => GWorkerDone 0
              end).
Proof.
  intros Hsrc Hws Hcl Hi Hn. role Hi Hws src closer.
  match goal with s : Stream |- _ => exists s end.
  do 2 eexists. split_and!; try done.
Qed.

Lemma pool_close src closer workers rest i g c k :
  src_ok src rest ->
  Forall (worker_ok (is_exit src)) workers ->
  closer_ok (lives workers) closer ->
  (src :: workers ++ [closer]) !! i = Some g -> next g = AClose c k ->
  (i = 0 ∧ c = 0 ∧ src = GSource 0 [] ∧ rest = [] ∧ k = GExit) ∨
  (i = S (length workers) ∧ c = 1 ∧ closer = GClose 1 ∧ k = GExit ∧
   lives workers = 0).
Proof.
  intros Hsrc Hws Hcl Hi Hn. role Hi Hws src closer.
  - by left.
  - by right.
Qed.

Lemma pool_done src closer workers rest i g wg k :
  src_ok src rest ->
  Forall (worker_ok (is_exit src)) workers ->
  closer_ok (lives workers) closer ->
  (src :: workers ++ [closer]) !! i = Some g -> next g = ADone wg k ->
  exists w1 w2,
    i = S (length w1) ∧ wg = 0 ∧ k = GExit ∧ is_exit src = true ∧
    workers = w1 ++ GWorkerDone 0 :: w2.
Proof.
  intros Hsrc Hws Hcl Hi Hn. role Hi Hws src closer.
  do 2 eexists. split_and!; try done.
Qed.

Lemma pool_wait src closer workers rest i g wg k :
  src_ok src rest ->
  Forall (worker_ok (is_exit src)) workers ->
  closer_ok (lives workers) closer ->
  (src :: workers ++ [closer]) !! i = Some g -> next g = AWait wg k ->
  i = S (length workers) ∧ wg = 0 ∧ closer = GWait 0 1 ∧ k = GClose 1.
Proof.
  intros Hsrc Hws Hcl Hi Hn. role Hi Hws src closer. done.
Qed.

(** *** Steps once the workers exist *)

Definition main_at (m : main_state) (result : list T) : Prop :=
  match m with
  | MChain s [] TCollect => data s = 1 ∧ result = []
  | MCollect s res => data s = 1 ∧ res = result
  | _ => False
  end.

Lemma par_inv_running (S : list T) (K : Z) m result r :
  (1 ≤ K)%Z -> main_at m result -> running S (Z.to_nat K) result r ->
  par_inv S K (Config m r false).
Proof.
  intros HK Hm Hrun. unfold par_inv; simpl.
  destruct m as [|s [|] []| | |]; simpl in *; try done;
    destruct Hm as [? ?]; subst; done.
Qed.

Lemma main_at_recv m result c km :
  main_at m result -> main_recv m = Some (c, km) ->
  exists s, m = MCollect s result ∧ data s = 1 ∧ c = 1 ∧
    km = (λ r, match r with
               | Some item => MCollect s (result ++ [item])
               | None => MReturn (VSlice result)
               end).
Proof.
  destruct m as [|s [|] []| | |]; simpl; try done.
  intros [Hs ->] ?; simplify_eq. by exists s.
Qed.

Lemma ins_worker (src closer : goroutine) w1 w w2 w' :
  <[S (length w1) := w']> (src :: (w1 ++ w :: w2) ++ [closer])
  = src :: (w1 ++ w' :: w2) ++ [closer].
Proof.
  simpl. f_equal.
  rewrite insert_app_l by (rewrite length_app; simpl; lia).
  by rewrite insert_middle.
Qed.

Lemma perm_take (a h1 h2 d : list T) v :
  a ++ (h1 ++ [v] ++ h2) ++ d ≡ₚ a ++ (h1 ++ [] ++ h2) ++ v :: d.
Proof.
  simpl. rewrite <- !app_assoc. simpl.
  do 2 apply Permutation_app_head. apply Permutation_middle.
Qed.

Lemma perm_give (a h1 h2 d : list T) v :
  (a ++ [v]) ++ (h1 ++ [] ++ h2) ++ d ≡ₚ a ++ (h1 ++ [v] ++ h2) ++ d.
Proof.
  simpl. rewrite <- !app_assoc. simpl.
  apply Permutation_app_head. apply Permutation_middle.
Qed.

Lemma par_step_running (S : list T) (K : Z) m result r cfg' :
  (1 ≤ K)%Z ->
  running S (Z.to_nat K) result r ->
  main_at m result ->
  step (Config m r false) cfg' ->
  call_step (Config m r false) = Some cfg' ∨
  (par_inv S K cfg' ∧
   par_measure (Z.to_nat K) cfg' < par_measure (Z.to_nat K) (Config m r false)).
Proof.
  intros HK Hrun Hm Hstep.
  destruct Hrun as [src rest workers closer Hsrc Hlen Hws Hcl Hperm Hord].
  inversion Hstep as
    [cfg0 cfg0' Hp Hc
    |m0 p cs ws i j gi gj c v ki kj Hi Hni Hj Hnj Hc
    |m0 p cs ws i gi c v ki km Hi Hni Hr Hc
    |m0 p cs ws j gj c kj Hj Hnj Hc
    |m0 p cs ws c km Hr Hc
    |m0 p cs ws i gi c ki Hi Hni Hc
    |m0 p cs ws i gi c ki Hi Hni Hc
    |m0 p cs ws i gi c v ki Hi Hni Hc
    |m0 p cs ws i gi wg ki n Hi Hni Hw Hn
    |m0 p cs ws i gi wg ki n Hi Hni Hw Hn
    |m0 p cs ws i gi wg ki Hi Hni Hw]; subst; [by left|right..].
  - (* the source hands an element to a worker *)
    destruct (pool_recv _ _ _ _ _ _ _ _ Hsrc Hws Hcl Hj Hnj)
      as (s & w1 & w2 & -> & -> & Hs & -> & ->).
    destruct (pool_send _ _ _ _ _ _ _ _ _ Hsrc Hws Hcl Hi Hni)
      as [(-> & _ & d & -> & -> & ->)|(s' & w1' & w2' & _ & ? & _)]; [|done].
    change (<[0:=GSource 0 d]> (GSource 0 (v :: d) :: ?l)) with (GSource 0 d :: l).
    rewrite ins_worker.
    rewrite !helds_app, !lives_app, !length_app in *. simpl in *.
    apply Forall_app in Hws as [Hw1 Hw2]. apply Forall_cons in Hw2 as [Hw Hw2].
    split.
    + apply par_inv_running with (result := result); [done|done|].
      eapply (running_intro S _ result (GSource 0 d) d _ closer); simpl;
        rewrite ?helds_app, ?lives_app, ?length_app; simpl; try done.
      * apply Forall_app. split; [done|]. by apply Forall_cons.
      * rewrite <- Hperm. apply perm_take.
      * intros Hk. rewrite <- (Hord Hk).
        destruct w1, w2; simpl in *; done || lia.
    + unfold par_measure; simpl. rewrite !total_app; simpl. lia.
  - (* a worker hands its element to the caller *)
    destruct (main_at_recv _ _ _ _ Hm Hr) as (s & -> & Hs & -> & ->).
    destruct (pool_send _ _ _ _ _ _ _ _ _ Hsrc Hws Hcl Hi Hni)
      as [(-> & ? & _)|(s' & w1 & w2 & -> & _ & Hs' & -> & ->)]; [done|].
    rewrite ins_worker.
    rewrite !helds_app, !lives_app, !length_app in *. simpl in *.
    apply Forall_app in Hws as [Hw1 Hw2]. apply Forall_cons in Hw2 as [Hw Hw2].
    split.
    + apply par_inv_running with (result := result ++ [v]); [done|done|].
      eapply (running_intro S _ (result ++ [v]) src rest _ closer); simpl;
        rewrite ?helds_app, ?lives_app, ?length_app; simpl; try done.
      * apply Forall_app. split; [done|]. by apply Forall_cons.
      * rewrite <- Hperm. apply perm_give.
      * intros Hk. rewrite <- (Hord Hk).
        destruct w1, w2; simpl in *; try lia. by rewrite <- app_assoc.
    + unfold par_measure; simpl. rewrite !total_app; simpl. lia.
  - (* a worker finds the input closed *)
    destruct (pool_recv _ _ _ _ _ _ _ _ Hsrc Hws Hcl Hj Hnj)
      as (s & w1 & w2 & -> & -> & Hs & -> & ->).
    simpl in Hc. rewrite ins_worker.
    rewrite !helds_app, !lives_app, !length_app in *. simpl in *.
    apply Forall_app in Hws as [Hw1 Hw2]. apply Forall_cons in Hw2 as [Hw Hw2].
    split.
    + apply par_inv_running with (result := result); [done|done|].
      eapply (running_intro S _ result src rest _ closer); simpl;
        rewrite ?helds_app, ?lives_app, ?length_app; simpl; try done.
      apply Forall_app. split; [done|]. apply Forall_cons.
      split; [|done]. simpl. split; [done|congruence].
    + unfold par_measure; simpl. rewrite !total_app; simpl. lia.
  - (* the caller finds the output closed *)
    destruct (main_at_recv _ _ _ _ Hm Hr) as (s & -> & Hs & -> & ->).
    simpl in Hc. assert (closer = GExit) as -> by (apply is_exit_true; congruence).
    simpl in Hcl.
    assert (Hall : forall g, g ∈ workers -> g = GExit)
      by (intros g; by apply lives_zero).
    assert (Hrest : rest = []).
    { destruct workers as [|w ws']; [simpl in Hlen; lia|].
      apply Forall_cons in Hws as [Hw _].
      rewrite (Hall w) in Hw by left. simpl in Hw.
      apply is_exit_true in Hw. by subst src. }
    rewrite (helds_exit _ Hall), Hrest, !app_nil_r in *.
    split.
    + unfold par_inv; simpl. split_and!; try done.
      intros ->. by apply Hord.
    + unfold par_measure; simpl. lia.
  - (* the source, or the closer, closes its channel *)
    destruct (pool_close _ _ _ _ _ _ _ _ Hsrc Hws Hcl Hi Hni)
      as [(-> & -> & -> & -> & ->)|(-> & -> & -> & -> & Hz)].
    + change (<[0:=GExit]> (GSource 0 [] :: ?l)) with (@GExit T :: l).
      split.
      * apply par_inv_running with (result := result); [done|done|].
        eapply (running_intro S _ result GExit [] workers closer); simpl; try done.
        eapply Forall_impl; [exact Hws|]. intros g. apply worker_ok_closed.
      * unfold par_measure; simpl. rewrite !total_app; simpl. lia.
    + rewrite run_insert_closer. split.
      * apply par_inv_running with (result := result); [done|done|].
        eapply (running_intro S _ result src rest workers GExit); simpl; try done.
      * unfold par_measure; simpl. rewrite !total_app; simpl. lia.
  - (* closing a closed channel does not happen *)
    destruct (pool_close _ _ _ _ _ _ _ _ Hsrc Hws Hcl Hi Hni)
      as [(-> & -> & -> & -> & ->)|(-> & -> & -> & -> & Hz)]; by simpl in Hc.
  - (* sending on a closed channel does not happen *)
    destruct (pool_send _ _ _ _ _ _ _ _ _ Hsrc Hws Hcl Hi Hni)
      as [(-> & -> & d & -> & -> & ->)|(s' & w1 & w2 & -> & -> & Hs' & -> & ->)];
      simpl in Hc; [done|].
    assert (closer = GExit) as -> by (apply is_exit_true; congruence).
    simpl in Hcl. rewrite lives_app in Hcl. simpl in Hcl. lia.
  - (* a worker reports that it is done *)
    destruct (pool_done _ _ _ _ _ _ _ _ Hsrc Hws Hcl Hi Hni)
      as (w1 & w2 & -> & -> & -> & Hx & ->).
    simpl in Hw. simplify_eq. rewrite ins_worker.
    rewrite !helds_app, !lives_app, !length_app in *. simpl in *.
    apply Forall_app in Hws as [Hw1 Hw2]. apply Forall_cons in Hw2 as [Hw Hw2].
    split.
    + apply par_inv_running with (result := result); [done|done|].
      eapply (running_intro S _ result src rest _ closer); simpl;
        rewrite ?helds_app, ?lives_app, ?length_app; simpl; try done.
      * f_equal. lia.
      * apply Forall_app. split; [done|]. by apply Forall_cons.
      * destruct closer; simpl in *; try done; lia.
    + unfold par_measure; simpl. rewrite !total_app; simpl. lia.
  - (* the counter does not go below zero *)
    destruct (pool_done _ _ _ _ _ _ _ _ Hsrc Hws Hcl Hi Hni)
      as (w1 & w2 & -> & -> & -> & Hx & ->).
    simpl in Hw. simplify_eq. rewrite lives_app in Hn. simpl in Hn. lia.
  - (* the closer has waited for all workers *)
    destruct (pool_wait _ _ _ _ _ _ _ _ Hsrc Hws Hcl Hi Hni)
      as (-> & -> & -> & ->).
    simpl in Hw. simplify_eq. rewrite run_insert_closer.
    split.
    + apply par_inv_running with (result := result); [done|done|].
      eapply (running_intro S _ result src rest workers (GClose 1)); simpl;
        try done.
      split; [done|lia].
    + unfold par_measure; simpl. rewrite !total_app; simpl. lia.
Qed.


Lemma par_step_start (c : chain) cfg' :
  step (Config (MStart c) (Runtime [] [] []) false) cfg' ->
  call_step (Config (MStart c) (Runtime [] [] []) false) = Some cfg'.
Proof.
  intros Hstep.
  inversion Hstep as
    [cfg0 cfg0' Hp Hc
    |m p cs ws i j gi gj c0 v ki kj Hi Hni Hj Hnj Hc
    |m p cs ws i gi c0 v ki km Hi Hni Hr Hc
    |m p cs ws j gj c0 kj Hj Hnj Hc
    |m p cs ws c0 km Hr Hc
    |m p cs ws i gi c0 ki Hi Hni Hc
    |m p cs ws i gi c0 ki Hi Hni Hc
    |m p cs ws i gi c0 v ki Hi Hni Hc
    |m p cs ws i gi wg ki n Hi Hni Hw Hn
    |m p cs ws i gi wg ki n Hi Hni Hw Hn
    |m p cs ws i gi wg ki Hi Hni Hw]; subst; done.
Qed.

Lemma par_step (S : list T) (K : Z) cfg cfg' :
  par_inv S K cfg -> returned cfg = None -> step cfg cfg' ->
  par_inv S K cfg' ∧ par_measure (Z.to_nat K) cfg' < par_measure (Z.to_nat K) cfg.
Proof.
  intros Hinv Hret Hstep. pose proof Hinv as (Hrun & HK & Hm).
  destruct cfg as [m r b]; simpl in *; subst b.
  destruct m as [c|s [|[] [|]] []|inital reduce s result|s result|[]];
    simpl in *; try done.
  - destruct Hm as [-> ->]. apply par_step_start in Hstep.
    by apply par_call.
  - destruct Hm as [Hs Hr].
    destruct (par_step_running S K (MChain s [] TCollect) [] r cfg' HK Hr)
      as [Hc|?]; [done|done| |done].
    by apply par_call.
  - destruct Hm as (-> & Hs & src & Hsrc & ->).
    destruct (par_step_early S K s src cfg' Hsrc Hstep)
      as [Hc|(-> & -> & ->)]; [by apply par_call|].
    split.
    + unfold par_inv; simpl. split_and!; try done. by exists GExit.
    + unfold par_measure; simpl. lia.
  - destruct Hm as [Hs Hr].
    destruct (par_step_running S K (MCollect s result) result r cfg' HK Hr)
      as [Hc|?]; [done|done| |done].
    by apply par_call.
Qed.

Lemma par_progress (xs : list T) (K : Z) cfg :
  par_inv xs K cfg -> returned cfg = None -> exists cfg', step cfg cfg'.
Proof.
  intros (Hrun & HK & Hm) Hret.
  destruct cfg as [m r b]; simpl in *; subst b.
  destruct m as [c|s cl t|inital reduce s result|s result|v]; simpl in *;
    try done.
  - eexists. apply step_call; [done|]. unfold call_step; simpl. done.
  - assert (exists cfg', call_step (Config (MChain s cl t) r false) = Some cfg')
      as [cfg' Hc].
    { unfold call_step; simpl.
      destruct cl as [|[] cl]; [destruct t| | | | |]; simpl; eauto.
      destruct (Parallel _ _ _) as [[]|]; eauto. }
    exists cfg'. by apply step_call.
  - destruct Hm as [Hs Hr].
    destruct Hr as [src rest workers closer Hsrc Hlen Hws Hcl Hperm Hord].
    assert (Hcloser : (src :: workers ++ [closer]) !! S (length workers)
                      = Some closer).
    { simpl. by rewrite list_lookup_middle. }
    destruct closer as [| | | | | | |wg ch|ch|]; simpl in Hcl; try done.
    + (* the closer still waits *)
      destruct Hcl as [-> ->].
      destruct (decide (lives workers = 0)) as [Hz|Hnz].
      { eexists. eapply step_wait; [exact Hcloser|done|]. by rewrite Hz. }
      destruct (lives_pos workers) as (j & w & Hj & Hlive); [lia|].
      pose proof (Forall_lookup_1 _ _ _ _ Hws Hj) as Hw.
      assert (Hjw : (src :: workers ++ [GWait 0 1]) !! S j = Some w).
      { simpl. by apply lookup_app_l_Some. }
      destruct w as [| | | | |s' ch' wg' [item|]|wg'| | |]; simpl in Hw; try done.
      * (* worker [j] holds an element: the caller takes it *)
        destruct Hw as (Hs' & -> & ->).
        eexists. eapply step_sync_main with (c := 1);
          [exact Hjw|done|simpl; by rewrite Hs|done].
      * (* worker [j] waits for the source *)
        destruct Hw as (Hs' & -> & ->).
        destruct src as [ch0 [|x d]| | | | | | | | |]; simpl in Hsrc; try done.
        -- destruct Hsrc as [-> _].
           eexists. eapply step_close with (i := 0); [done|done|done].
        -- destruct Hsrc as [-> _].
           eexists. eapply step_sync with (i := 0) (j := S j) (gj := GWorker s' 1 0 None);
             [done|done|exact Hjw| |done].
           simpl. by rewrite Hs'.
        -- eexists. eapply step_recv_closed; [exact Hjw|done|].
           by rewrite Hs'.
      * (* worker [j] is about to call Done *)
        destruct Hw as [-> _].
        eexists. eapply step_done; [exact Hjw|done|done|lia].
    + destruct Hcl as [-> _]. eexists.
      eapply step_close with (c := 1); [exact Hcloser|done|done].
    + eexists. eapply step_recv_closed_main with (c := 1);
        [simpl; by rewrite Hs|done].
Qed.

(** C6: [Collect] after [Parallel(K)] over [NewStream(S)], for [K >= 1],
    returns under every scheduler a permutation of [S], and for [K = 1]
    exactly [S]. *)
Theorem Parallel_Collect_permutation (S : list T) (K : Z)
    (sched : nat -> nat) (fuel : nat) :
  (1 ≤ K)%Z ->
  par_measure (Z.to_nat K) (start (Chain S [CParallel K] TCollect)) ≤ fuel ->
  exists r,
    exec sched fuel (start (Chain S [CParallel K] TCollect)) = Some (VSlice r) ∧
    r ≡ₚ S ∧
    (K = 1%Z -> r = S).
Proof.
  intros HK Hfuel.
  destruct (exec_total (par_inv S K) (par_measure (Z.to_nat K))
    (λ v, exists r, v = VSlice r ∧ r ≡ₚ S ∧ (K = 1%Z -> r = S)))
    with (fuel := fuel) (sched := sched)
         (cfg := start (Chain S [CParallel K] TCollect))
    as (v & Hv & r & -> & Hr).
  - intros cfg cfg'. apply par_step.
  - apply par_progress.
  - intros cfg v (Hrun & _ & Hm) Hret. unfold returned in Hret.
    rewrite Hrun in Hret. destruct (main cfg); simplify_eq.
    destruct v as [|r]; [done|]. by exists r.
  - unfold par_inv; simpl. done.
  - done.
  - by exists r.
Qed.

(** ** Further properties of the pipeline *)

(** X14: [Collect] at the end of any chain of [Filter], [Map], [FlatMap]
    and [Limit] stages returns, under every scheduler, the source passed
    through the list functions of the stages, composed in chain order. *)
Theorem Collect_composes_the_stages (S : list T) (cs : list call)
    (sched : nat -> nat) (fuel : nat) :
  forallb sequential cs = true ->
  chain_measure (start (Chain S cs TCollect)) ≤ fuel ->
  exec sched fuel (start (Chain S cs TCollect))
  = Some (VSlice (fold_left (λ l c, denote1 c l) cs S)).
Proof. intros Hseq Hfuel. by rewrite chain_run. Qed.

Lemma denote_nil (cs : list call) :
  forallb sequential cs = true -> denote cs [] = [].
Proof.
  unfold denote. induction cs as [|c cs IH]; simpl; [done|].
  intros [Hc Hcs]%andb_prop.
  destruct c; simpl in *; try done; unfold limit; rewrite ?take_nil; auto.
Qed.

(** X15: over an empty source every sequential chain runs to the end
    without panic: [Collect] returns the empty slice and [Reduce] returns
    [inital]. *)
Theorem empty_source_runs_to_empty (cs : list call) (inital : T)
    (reduce : T -> T -> T) (sched : nat -> nat) (fuel : nat) :
  forallb sequential cs = true ->
  chain_measure (start (Chain [] cs TCollect)) ≤ fuel ->
  exec sched fuel (start (Chain [] cs TCollect)) = Some (VSlice []) ∧
  exec sched fuel (start (Chain [] cs (TReduce inital reduce)))
  = Some (VElem inital).
Proof.
  intros Hseq Hfuel. rewrite !chain_run by done. simpl.
  by rewrite denote_nil.
Qed.


(** X17: with a negative worker count the call to [Parallel] panics in
    [wg.Add]: no run ever returns, and a run can only stop by that panic
    (as long as the program has not panicked, a step is enabled). *)
Theorem Parallel_negative_panics (S : list T) (K : Z) (t : terminal) :
  (K < 0)%Z ->
  (exists cfg,
     rtc step (start (Chain S [CParallel K] t)) cfg ∧ panicked cfg = true) ∧
  forall cfg,
    rtc step (start (Chain S [CParallel K] t)) cfg ->
    returned cfg = None ∧
    (panicked cfg = false -> exists cfg', step cfg cfg').
Proof.
  intros HK. split.
  { eexists. split; [|shelve].
    eapply rtc_l; [by apply step_call|].
    eapply rtc_l; [|apply rtc_refl].
    apply step_call; [done|]. unfold call_step; simpl.
    unfold Parallel, new_wg; simpl. by rewrite bool_decide_true.
    Unshelve. done. }
  intros cfg Hrun.
  assert (Hinv : panicked cfg = true ∨
                 panicked cfg = false ∧
                 (main cfg = MStart (Chain S [CParallel K] t) ∨
                  exists s, main cfg = MChain s [CParallel K] t)).
  { revert cfg Hrun. apply rtc_ind_r.
    - right. split; [done|]. by left.
    - intros cfg1 cfg2 _ Hstep IH. destruct IH as [Hp|[Hp Hm]].
      { inversion Hstep; subst; simpl in *; congruence. }
      inversion Hstep as
        [cfg0 cfg0' Hp0 Hc
        |m p cs ws i j gi gj c v ki kj Hi Hni Hj Hnj Hc
        |m p cs ws i gi c v ki km Hi Hni Hr Hc
        |m p cs ws j gj c kj Hj Hnj Hc
        |m p cs ws c km Hr Hc
        |m p cs ws i gi c ki Hi Hni Hc
        |m p cs ws i gi c ki Hi Hni Hc
        |m p cs ws i gi c v ki Hi Hni Hc
        |m p cs ws i gi wg ki n Hi Hni Hw Hn
        |m p cs ws i gi wg ki n Hi Hni Hw Hn
        |m p cs ws i gi wg ki Hi Hni Hw]; subst; simpl in *;
        try (by left); try (by right);
        try (destruct Hm as [->|[s ->]]; done).
      unfold call_step in Hc.
      destruct Hm as [Hm|[s Hm]]; rewrite Hm in Hc; simpl in Hc.
      + simplify_eq/=. right. split; [done|]. right. by eexists.
      + unfold Parallel, new_wg in Hc; simpl in Hc.
        rewrite bool_decide_true in Hc by done. simplify_eq/=. by left. }
  destruct Hinv as [Hp|[Hp Hm]].
  - unfold returned. rewrite Hp. split; [done|]. intros; congruence.
  - split.
    + unfold returned. rewrite Hp. by destruct Hm as [->|[s ->]].
    + intros _.
      assert (exists cfg', call_step cfg = Some cfg') as [cfg' Hc].
      { unfold call_step. destruct Hm as [->|[s ->]]; simpl; [by eexists|].
        destruct (Parallel _ _ _) as [[]|]; by eexists. }
      exists cfg'. by apply step_call.
Qed.

(** *** [Parallel(0)]: no worker, only the closer *)

Definition idle (S : list T) (r : runtime) : Prop :=
  exists src closer,
    src_ok src S ∧ closer_ok 0 closer ∧
    r = Runtime [src; closer] [is_exit src; is_exit closer] [0%Z].

Definition par0_inv (S : list T) cfg : Prop :=
  panicked cfg = false ∧
  match main cfg with
  | MStart c =>
      c = Chain S [CParallel 0] TCollect ∧ rt cfg = Runtime [] [] []
  | MChain s [CParallel K'] TCollect =>
      K' = 0%Z ∧ data s = 0 ∧
      exists src, src_ok src S ∧ rt cfg = Runtime [src] [is_exit src] []
  | MChain s [] TCollect => data s = 1 ∧ idle S (rt cfg)
  | MCollect s result => data s = 1 ∧ result = [] ∧ idle S (rt cfg)
  | MReturn v => v = VSlice []
  | _ => False
  end.

Lemma par0_call (S : list T) cfg cfg' :
  par0_inv S cfg -> call_step cfg = Some cfg' ->
  par0_inv S cfg' ∧ par_measure 0 cfg' < par_measure 0 cfg.
Proof.
  intros (Hrun & Hm) Hc.
  destruct cfg as [m r b]; simpl in *; subst b.
  unfold call_step in Hc; simpl in Hc. unfold par0_inv, par_measure.
  destruct m as [c|s [|[]  [|]] []| | |]; simpl in *; try done.
  - destruct Hm as [-> ->]. simplify_eq/=.
    split; [|lia]. split_and!; try done. by exists (GSource 0 S).
  - destruct Hm as [Hs Hr]. simplify_eq/=. split; [|lia]. done.
  - destruct Hm as (-> & Hs & src & Hsrc & ->).
    unfold Parallel, new_wg in Hc; simpl in Hc. simplify_eq/=.
    split; [|lia]. split_and!; try done.
    by exists src, (GWait 0 1).
Qed.

Lemma par0_step_idle (S : list T) m r cfg' :
  idle S r ->
  main_at m [] ->
  step (Config m r false) cfg' ->
  call_step (Config m r false) = Some cfg' ∨
  (par0_inv S cfg' ∧ par_measure 0 cfg' < par_measure 0 (Config m r false)).
Proof.
  intros (src & closer & Hsrc & Hcl & ->) Hm Hstep.
  assert (Hws : Forall (worker_ok (is_exit src)) []) by constructor.
  change [src; closer] with (src :: [] ++ [closer]) in Hstep.
  assert (Hkeep : forall src' closer',
     src_ok src' S -> closer_ok 0 closer' ->
     par0_inv S (Config m (Runtime [src'; closer']
                             [is_exit src'; is_exit closer'] [0%Z]) false)).
  { intros src' closer' Hs' Hc'. unfold par0_inv; simpl.
    assert (idle S (Runtime [src'; closer'] [is_exit src'; is_exit closer'] [0%Z]))
      by (by exists src', closer').
    destruct m as [|s [|] []| | |]; simpl in *; try done;
      destruct Hm as [? ?]; subst; done. }
  inversion Hstep as
    [cfg0 cfg0' Hp Hc
    |m0 p cs ws i j gi gj c v ki kj Hi Hni Hj Hnj Hc
    |m0 p cs ws i gi c v ki km Hi Hni Hr Hc
    |m0 p cs ws j gj c kj Hj Hnj Hc
    |m0 p cs ws c km Hr Hc
    |m0 p cs ws i gi c ki Hi Hni Hc
    |m0 p cs ws i gi c ki Hi Hni Hc
    |m0 p cs ws i gi c v ki Hi Hni Hc
    |m0 p cs ws i gi wg ki n Hi Hni Hw Hn
    |m0 p cs ws i gi wg ki n Hi Hni Hw Hn
    |m0 p cs ws i gi wg ki Hi Hni Hw]; subst; [by left|right..].
  - destruct (pool_recv _ _ _ _ _ _ _ _ Hsrc Hws Hcl Hj Hnj)
      as (s & w1 & w2 & _ & _ & _ & Hnil & _).
    by destruct w1.
  - destruct (main_at_recv _ _ _ _ Hm Hr) as (s & -> & Hs & -> & ->).
    destruct (pool_send _ _ _ _ _ _ _ _ _ Hsrc Hws Hcl Hi Hni)
      as [(_ & ? & _)|(s' & w1 & w2 & _ & _ & _ & Hnil & _)]; [done|].
    by destruct w1.
  - destruct (pool_recv _ _ _ _ _ _ _ _ Hsrc Hws Hcl Hj Hnj)
      as (s & w1 & w2 & _ & _ & _ & Hnil & _).
    by destruct w1.
  - destruct (main_at_recv _ _ _ _ Hm Hr) as (s & -> & Hs & -> & ->).
    split; [done|]. unfold par_measure; simpl. lia.
  - destruct (pool_close _ _ _ _ _ _ _ _ Hsrc Hws Hcl Hi Hni)
      as [(-> & -> & -> & -> & ->)|(-> & -> & -> & -> & Hz)]; simpl.
    + split; [by apply (Hkeep GExit closer)|].
      unfold par_measure; simpl. lia.
    + split; [by apply (Hkeep src GExit)|].
      unfold par_measure; simpl. lia.
  - destruct (pool_close _ _ _ _ _ _ _ _ Hsrc Hws Hcl Hi Hni)
      as [(-> & -> & -> & -> & ->)|(-> & -> & -> & -> & Hz)]; by simpl in Hc.
  - destruct (pool_send _ _ _ _ _ _ _ _ _ Hsrc Hws Hcl Hi Hni)
      as [(-> & -> & d & -> & -> & ->)|(s' & w1 & w2 & _ & _ & _ & Hnil & _)];
      [by simpl in Hc|by destruct w1].
  - destruct (pool_done _ _ _ _ _ _ _ _ Hsrc Hws Hcl Hi Hni)
      as (w1 & w2 & _ & _ & _ & _ & Hnil).
    by destruct w1.
  - destruct (pool_done _ _ _ _ _ _ _ _ Hsrc Hws Hcl Hi Hni)
      as (w1 & w2 & _ & _ & _ & _ & Hnil).
    by destruct w1.
  - destruct (pool_wait _ _ _ _ _ _ _ _ Hsrc Hws Hcl Hi Hni)
      as (-> & -> & -> & ->). simpl.
    split; [by apply (Hkeep src (GClose 1))|].
    unfold par_measure; simpl. lia.
Qed.

Lemma par0_step (S : list T) cfg cfg' :
  par0_inv S cfg -> returned cfg = None -> step cfg cfg' ->
  par0_inv S cfg' ∧ par_measure 0 cfg' < par_measure 0 cfg.
Proof.
  intros Hinv Hret Hstep. pose proof Hinv as (Hrun & Hm).
  destruct cfg as [m r b]; simpl in *; subst b.
  destruct m as [c|s [|[] [|]] []|inital reduce s result|s result|[]];
    simpl in *; try done.
  - destruct Hm as [-> ->]. apply par_step_start in Hstep.
    by apply par0_call.
  - destruct Hm as [Hs Hr].
    destruct (par0_step_idle S (MChain s [] TCollect) r cfg' Hr) as [Hc|?];
      [done|done| |done].
    by apply par0_call.
  - destruct Hm as (-> & Hs & src & Hsrc & ->).
    destruct (par_step_early S 0 s src cfg' Hsrc Hstep)
      as [Hc|(-> & -> & ->)]; [by apply par0_call|].
    split.
    + unfold par0_inv; simpl. split_and!; try done. by exists GExit.
    + unfold par_measure; simpl. lia.
  - destruct Hm as (Hs & -> & Hr).
    destruct (par0_step_idle S (MCollect s []) r cfg' Hr) as [Hc|?];
      [done|done| |done].
    by apply par0_call.
Qed.

Lemma par0_progress (xs : list T) cfg :
  par0_inv xs cfg -> returned cfg = None -> exists cfg', step cfg cfg'.
Proof.
  intros (Hrun & Hm) Hret.
  destruct cfg as [m r b]; simpl in *; subst b.
  destruct m as [c|s cl t|inital reduce s result|s result|v]; simpl in *;
    try done.
  - eexists. apply step_call; [done|]. unfold call_step; simpl. done.
  - assert (exists cfg', call_step (Config (MChain s cl t) r false) = Some cfg')
      as [cfg' Hc].
    { unfold call_step; simpl.
      destruct cl as [|[] cl]; [destruct t| | | | |]; simpl; eauto.
      destruct (Parallel _ _ _) as [[]|]; eauto. }
    exists cfg'. by apply step_call.
  - destruct Hm as (Hs & -> & src & closer & Hsrc & Hcl & ->).
    destruct closer as [| | | | | | |wg ch|ch|]; simpl in Hcl; try done.
    + destruct Hcl as [-> ->]. eexists.
      eapply step_wait with (i := 1); done.
    + destruct Hcl as [-> _]. eexists.
      eapply step_close with (i := 1) (c := 1); done.
    + eexists. eapply step_recv_closed_main with (c := 1);
        [simpl; by rewrite Hs|done].
Qed.

(** X18: with a worker count of zero nothing is forwarded: whatever the
    source holds, [Collect] after [Parallel(0)] returns the empty slice. *)
Theorem Parallel_zero_drops_everything (S : list T)
    (sched : nat -> nat) (fuel : nat) :
  par_measure 0 (start (Chain S [CParallel 0] TCollect)) ≤ fuel ->
  exec sched fuel (start (Chain S [CParallel 0] TCollect)) = Some (VSlice []).
Proof.
  intros Hfuel.
  destruct (exec_total (par0_inv S) (par_measure 0) (λ v, v = VSlice []))
    with (fuel := fuel) (sched := sched)
         (cfg := start (Chain S [CParallel 0] TCollect))
    as (v & Hv & ->); try done.
  - intros cfg cfg'. apply par0_step.
  - apply par0_progress.
  - intros cfg v (Hrun & Hm) Hret. unfold returned in Hret.
    rewrite Hrun in Hret. destruct (main cfg); by simplify_eq.
Qed.

(** *** [Limit] and the goroutine it leaves behind *)










(** X20: [Limit(n)] and [Map(f)] commute: limiting before mapping
    collects, under any two schedulers, what mapping before limiting
    collects, namely [f] applied to the first [n] elements. *)
Theorem Limit_and_Map_commute (S : list T) (n : Z) (f : T -> T)
    (sched sched' : nat -> nat) (fuel : nat) :
  chain_measure (start (Chain S [CLimit n; CMap f] TCollect)) ≤ fuel ->
  chain_measure (start (Chain S [CMap f; CLimit n] TCollect)) ≤ fuel ->
  exec sched fuel (start (Chain S [CLimit n; CMap f] TCollect))
  = exec sched' fuel (start (Chain S [CMap f; CLimit n] TCollect)) ∧
  exec sched fuel (start (Chain S [CLimit n; CMap f] TCollect))
  = Some (VSlice (List.map f (take (Z.to_nat n) S))).
Proof.
  intros Hfuel Hfuel'. rewrite !chain_run by done. simpl. unfold limit.
  split; [|done]. do 2 f_equal. symmetry. apply firstn_map.
Qed.

End facts.

(** C1: [Reduce(inital, combine)] at the end of a sequential chain that
    delivers [e1..ek] returns [combine inital ek] when [k >= 1] (each step
    recomputes [combine] against [inital], not against the running result)
    and [inital] when [k = 0]; so [reduce(0, +)] over [1..10] returns 10. *)
Theorem Reduce_returns_combine_of_last :
  (forall (T : Type) (S : list T) (cs : list (@call T)) (inital : T)
          (combine : T -> T -> T) (sched : nat -> nat) (fuel : nat),
     forallb sequential cs = true ->
     chain_measure (start (Chain S cs (TReduce inital combine))) ≤ fuel ->
     exec sched fuel (start (Chain S cs (TReduce inital combine)))
     = Some (VElem match last (denote cs S) with
                   | Some ek => combine inital ek
                   | None => inital
                   end)) ∧
  (forall (sched : nat -> nat) (fuel : nat),
     15 ≤ fuel ->
     exec sched fuel
       (start (Chain [1; 2; 3; 4; 5; 6; 7; 8; 9; 10]%Z [] (TReduce 0%Z Z.add)))
     = Some (VElem 10%Z)).
Proof.
  assert (Hgen : forall (T : Type) (S : list T) (cs : list (@call T)) (inital : T)
          (combine : T -> T -> T) (sched : nat -> nat) (fuel : nat),
     forallb sequential cs = true ->
     chain_measure (start (Chain S cs (TReduce inital combine))) ≤ fuel ->
     exec sched fuel (start (Chain S cs (TReduce inital combine)))
     = Some (VElem match last (denote cs S) with
                   | Some ek => combine inital ek
                   | None => inital
                   end)).
  { intros T S cs inital combine sched fuel Hseq Hfuel.
    rewrite chain_run by done. simpl. by rewrite fold_left_last. }
  split; [exact Hgen|].
  intros sched fuel Hfuel. by rewrite Hgen.
Qed.

(** Concrete runs, on integers, under a scheduler that keeps changing its
    choice. *)

Lemma Reduce_returns_combine_of_last_witness :
  exec (λ t, 3 * t + 1) 40
    (start (Chain [3; 1; 2]%Z [CMap (Z.add 1)] (TReduce 0%Z Z.mul)))
  = Some (VElem 0%Z).
Proof.
  apply (proj1 Reduce_returns_combine_of_last Z [3; 1; 2]%Z [CMap (Z.add 1)]
           0%Z Z.mul (λ t, 3 * t + 1) 40).
  - reflexivity.
  - vm_compute. lia.
Defined.

Lemma Filter_Collect_subsequence_witness :
  exec (λ t, 3 * t + 1) 40
    (start (Chain [1; 2; 3; 4; 5; 6; 7; 8; 9; 10]%Z [CFilter Z.even] TCollect))
  = Some (VSlice [2; 4; 6; 8; 10]%Z).
Proof.
  apply (Filter_Collect_subsequence [1; 2; 3; 4; 5; 6; 7; 8; 9; 10]%Z Z.even
           (λ t, 3 * t + 1) 40).
  vm_compute. lia.
Defined.

Lemma Limit_Collect_prefix_witness :
  exists r,
    exec (λ t, 3 * t + 1) 40 (start (Chain [1; 2; 3]%Z [CLimit 2] TCollect))
    = Some (VSlice r) ∧
    ((0 ≤ 2)%Z -> r = take (Z.to_nat 2 `min` length [1; 2; 3]%Z) [1; 2; 3]%Z) ∧
    ((2 ≤ 0)%Z -> r = []).
Proof.
  apply (Limit_Collect_prefix [1; 2; 3]%Z 2 (λ t, 3 * t + 1) 40).
  vm_compute. lia.
Defined.

Lemma FlatMap_Collect_concat_witness :
  exec (λ t, 3 * t + 1) 40
    (start (Chain [1; 2; 3]%Z [CFlatMap (λ x, [x; x])] TCollect))
  = Some (VSlice [1; 1; 2; 2; 3; 3]%Z).
Proof.
  apply (FlatMap_Collect_concat [1; 2; 3]%Z (λ x, [x; x]) (λ t, 3 * t + 1) 40).
  vm_compute. lia.
Defined.

Lemma Map_Collect_pointwise_witness :
  exists r,
    exec (λ t, 3 * t + 1) 40 (start (Chain [1; 2; 3]%Z [CMap (Z.mul 2)] TCollect))
    = Some (VSlice r) ∧
    length r = length [1; 2; 3]%Z ∧
    forall i, r !! i = Z.mul 2 <$> [1; 2; 3]%Z !! i.
Proof.
  apply (Map_Collect_pointwise [1; 2; 3]%Z (Z.mul 2) (λ t, 3 * t + 1) 40).
  vm_compute. lia.
Defined.

Lemma Parallel_Collect_permutation_witness :
  exists r,
    exec (λ t, 3 * t + 1) 60 (start (Chain [1; 2; 3]%Z [CParallel 2] TCollect))
    = Some (VSlice r) ∧
    r ≡ₚ [1; 2; 3]%Z ∧
    (2%Z = 1%Z -> r = [1; 2; 3]%Z).
Proof.
  apply (Parallel_Collect_permutation [1; 2; 3]%Z 2 (λ t, 3 * t + 1) 60).
  - lia.
  - vm_compute. lia.
Defined.

Lemma Filter_idempotent_witness :
  (exec (λ t, 3 * t + 1) 60
     (start (Chain [2; 4; 5]%Z [CFilter Z.even; CFilter Z.even] TCollect))
   = exec (λ t, t) 60 (start (Chain [2; 4; 5]%Z [CFilter Z.even] TCollect)) ∧
   exec (λ t, t) 60 (start (Chain [2; 4; 5]%Z [CFilter Z.even] TCollect))
   = Some (VSlice [2; 4]%Z)) ∧
  (exec (λ t, 3 * t + 1) 60
     (start (Chain [2; 4; 5]%Z ([CMap (Z.mul 2)] ++ [CFilter Z.even]) TCollect))
   = exec (λ t, t) 60 (start (Chain [2; 4; 5]%Z [CMap (Z.mul 2)] TCollect)) ∧
   exec (λ t, t) 60 (start (Chain [2; 4; 5]%Z [CMap (Z.mul 2)] TCollect))
   = Some (VSlice [4; 8; 10]%Z)).
Proof.
  destruct (Filter_idempotent [2; 4; 5]%Z Z.even [CMap (Z.mul 2)]
              (λ t, 3 * t + 1) (λ t, t) 60) as [Htwice Hall].
  - reflexivity.
  - vm_compute. lia.
  - vm_compute. lia.
  - split; [exact Htwice|]. apply Hall.
    intros x Hx. simpl in Hx.
    repeat (apply elem_of_cons in Hx as [->|Hx]; [reflexivity|]).
    by apply elem_of_nil in Hx.
Defined.

(** Concrete runs for the further properties. *)

Lemma Collect_composes_the_stages_witness :
  exec (λ t, 3 * t + 1) 80
    (start (Chain [1; 2; 3; 4; 5; 6]%Z
              [CFilter Z.even; CFlatMap (λ x, [x; x]); CLimit 3; CMap (Z.add 1)]
              TCollect))
  = Some (VSlice [3; 3; 5]%Z).
Proof.
  apply (Collect_composes_the_stages [1; 2; 3; 4; 5; 6]%Z
           [CFilter Z.even; CFlatMap (λ x, [x; x]); CLimit 3; CMap (Z.add 1)]
           (λ t, 3 * t + 1) 80).
  - reflexivity.
  - vm_compute. lia.
Defined.

Lemma empty_source_runs_to_empty_witness :
  exec (λ t, 3 * t + 1) 40
    (start (Chain [] [CFilter Z.even; CMap (Z.add 1)] TCollect))
  = Some (VSlice []) ∧
  exec (λ t, 3 * t + 1) 40
    (start (Chain [] [CFilter Z.even; CMap (Z.add 1)] (TReduce 7%Z Z.add)))
  = Some (VElem 7%Z).
Proof.
  apply (empty_source_runs_to_empty [CFilter Z.even; CMap (Z.add 1)] 7%Z Z.add
           (λ t, 3 * t + 1) 40).
  - reflexivity.
  - vm_compute. lia.
Defined.


Lemma Parallel_negative_panics_witness :
  (exists cfg,
     rtc step (start (Chain [1; 2]%Z [CParallel (-1)] TCollect)) cfg ∧
     panicked cfg = true) ∧
  forall cfg,
    rtc step (start (Chain [1; 2]%Z [CParallel (-1)] TCollect)) cfg ->
    returned cfg = None ∧
    (panicked cfg = false -> exists cfg', step cfg cfg').
Proof.
  apply (Parallel_negative_panics [1; 2]%Z (-1) TCollect). lia.
Defined.

Lemma Parallel_zero_drops_everything_witness :
  exec (λ t, 3 * t + 1) 40 (start (Chain [1; 2; 3]%Z [CParallel 0] TCollect))
  = Some (VSlice []).
Proof.
  apply (Parallel_zero_drops_everything [1; 2; 3]%Z (λ t, 3 * t + 1) 40).
  vm_compute. lia.
Defined.


Lemma Limit_and_Map_commute_witness :
  exec (λ t, 3 * t + 1) 60
    (start (Chain [1; 2; 3]%Z [CLimit 2; CMap (Z.mul 2)] TCollect))
  = exec (λ t, t) 60
      (start (Chain [1; 2; 3]%Z [CMap (Z.mul 2); CLimit 2] TCollect)) ∧
  exec (λ t, 3 * t + 1) 60
    (start (Chain [1; 2; 3]%Z [CLimit 2; CMap (Z.mul 2)] TCollect))
  = Some (VSlice [2; 4]%Z).
Proof.
  apply (Limit_and_Map_commute [1; 2; 3]%Z 2 (Z.mul 2) (λ t, 3 * t + 1) (λ t, t) 60).
  - vm_compute. lia.
  - vm_compute. lia.
Defined.

End StreamFacts.
